(** * tangent_to_midi: the OSC-to-MIDI translation engine

    A shallow embedding of [tangent_to_midi.py]: the mapping table, the value
    scaler [scale_value], the handler [osc_handler] with its module-level
    dictionary [cc_values], and the start-up path of [main].

    Python objects are modelled as follows.
    - [int] is [Z]; [float] is an exact rational, or one of the IEEE special
      values (infinities, NaN).  Arithmetic on finite floats is exact rational
      arithmetic: binary64 rounding and overflow are not modelled.
    - An OSC argument is an int, a float, a bool, a string or [None].
    - A raised exception is a value of [exn]; code that can raise returns a
      [result].
    - The handler runs in a small state-and-exception monad over [world],
      which holds [cc_values], the console and the MIDI output port.  A write
      to [cc_values] made before an exception is raised stays in place, as
      in Python.
    - [mido.Message] is modelled with the range checks of its constructor;
      [midi_out_port.send] and [print] always succeed. *)

From Stdlib Require Import ZArith QArith Qround Lqa Lia String Ascii List Bool.
From Stdlib Require OrderedTypeEx.
From stdpp Require Import base option gmap strings.
Import ListNotations.

Local Open Scope string_scope.
Local Open Scope list_scope.
Local Open Scope Z_scope.

(** ** Exceptions *)

Inductive exn : Set :=
| IndexError | KeyError | TypeError | ValueError | OverflowError
| ZeroDivisionError.

Inductive result (A : Type) : Type :=
| Ok (a : A)
| Raise (e : exn).
Arguments Ok {A} a.
Arguments Raise {A} e.

#[global] Instance result_ret : MRet result := fun A a => Ok a.
#[global] Instance result_bind : MBind result := fun A B f m =>
  match m with
  | Ok a => f a
  | Raise e => Raise e
  end.
#[global] Instance result_fmap : FMap result := fun A B f m =>
  match m with
  | Ok a => Ok (f a)
  | Raise e => Raise e
  end.

(** ** Python numbers and values *)

Inductive pyfloat : Set :=
| Finite (q : Q)
| Inf (negative : bool)
| NaN.

Inductive number : Set :=
| PyInt (z : Z)
| PyFloat (f : pyfloat).

(** What an OSC argument, or an entry of a [value_map], can be. *)
Inductive pyval : Set :=
| PyNum (n : number)
| PyBool (b : bool)
| PyStr (s : string)
| PyNone.

Coercion PyNum : number >-> pyval.

(** [float(n)] *)
Definition float_ (n : number) : pyfloat :=
  match n with
  | PyInt z => Finite (inject_Z z)
  | PyFloat f => f
  end.

Definition Qlt_bool (a b : Q) : bool := negb (Qle_bool b a).

(** [x < y] on floats; every comparison with NaN is false. *)
Definition float_lt (x y : pyfloat) : bool :=
  match x, y with
  | NaN, _ | _, NaN => false
  | Finite a, Finite b => Qlt_bool a b
  | Inf true, Inf true => false
  | Inf true, _ => true
  | _, Inf true => false
  | Inf false, _ => false
  | Finite _, Inf false => true
  end.

(** Python compares an int with a float by exact value. *)
Definition num_lt (a b : number) : bool := float_lt (float_ a) (float_ b).

(** [bool] is a subclass of [int]. *)
Definition as_number (v : pyval) : option number :=
  match v with
  | PyNum n => Some n
  | PyBool b => Some (PyInt (Z.b2z b))
  | PyStr _ | PyNone => None
  end.

(** [a < b]: numbers by value, strings lexicographically, anything else is a
    [TypeError]. *)
Definition py_lt (a b : pyval) : result bool :=
  match a, b with
  | PyStr s, PyStr t => Ok (String.ltb s t)
  | _, _ =>
      match as_number a, as_number b with
      | Some x, Some y => Ok (num_lt x y)
      | _, _ => Raise TypeError
      end
  end.

(** [a > b] *)
Definition py_gt (a b : pyval) : result bool := py_lt b a.

(** [min(a, b)]: [b] replaces [a] only when [b < a]. *)
Definition py_min (a b : pyval) : result pyval :=
  lt ← py_lt b a; mret (if lt : bool then b else a).

(** [max(a, b)]: [b] replaces [a] only when [b > a]. *)
Definition py_max (a b : pyval) : result pyval :=
  gt ← py_gt b a; mret (if gt : bool then b else a).

(** Float arithmetic with the IEEE rules for the special values. *)
Definition float_neg (x : pyfloat) : pyfloat :=
  match x with
  | Finite a => Finite (- a)
  | Inf s => Inf (negb s)
  | NaN => NaN
  end.

Definition float_add (x y : pyfloat) : pyfloat :=
  match x, y with
  | NaN, _ | _, NaN => NaN
  | Finite a, Finite b => Finite (a + b)
  | Inf s, Inf t => if Bool.eqb s t then Inf s else NaN
  | Inf s, Finite _ | Finite _, Inf s => Inf s
  end.

Definition float_sub (x y : pyfloat) : pyfloat := float_add x (float_neg y).

Definition Qis_zero (a : Q) : bool := Qeq_bool a 0.
Definition Qis_neg (a : Q) : bool := Qlt_bool a 0.

Definition float_mul (x y : pyfloat) : pyfloat :=
  match x, y with
  | NaN, _ | _, NaN => NaN
  | Finite a, Finite b => Finite (a * b)
  | Inf s, Inf t => Inf (xorb s t)
  | Inf s, Finite a | Finite a, Inf s =>
      if Qis_zero a then NaN else Inf (xorb s (Qis_neg a))
  end.

(** [x / y] on floats: Python raises on a zero divisor before anything else. *)
Definition float_div (x y : pyfloat) : result pyfloat :=
  match y with
  | Finite b =>
      if Qis_zero b then Raise ZeroDivisionError
      else Ok match x with
              | Finite a => Finite (a / b)
              | Inf s => Inf (xorb s (Qis_neg b))
              | NaN => NaN
              end
  | Inf _ =>
      Ok match x with
         | Finite _ => Finite 0
         | Inf _ | NaN => NaN
         end
  | NaN => Ok NaN
  end.

(** Binary arithmetic on numbers: int with int stays int, anything else is
    done in floats. *)
Definition num_sub (a b : number) : number :=
  match a, b with
  | PyInt x, PyInt y => PyInt (x - y)
  | _, _ => PyFloat (float_sub (float_ a) (float_ b))
  end.

(** [a - b] *)
Definition py_sub (a b : pyval) : result number :=
  match as_number a, as_number b with
  | Some x, Some y => Ok (num_sub x y)
  | _, _ => Raise TypeError
  end.

(** [x * b] with [x] a float. *)
Definition py_float_mul (x : pyfloat) (b : number) : pyfloat :=
  float_mul x (float_ b).

(** [a + y] with [y] a float. *)
Definition py_add_float (a : pyval) (y : pyfloat) : result pyfloat :=
  match as_number a with
  | Some x => Ok (float_add (float_ x) y)
  | None => Raise TypeError
  end.

(** Truncation toward zero. *)
Definition Qtrunc (a : Q) : Z := Z.quot (Qnum a) (Zpos (Qden a)).

(** [int(x)] on a float. *)
Definition int_of_float (x : pyfloat) : result Z :=
  match x with
  | Finite a => Ok (Qtrunc a)
  | Inf _ => Raise OverflowError
  | NaN => Raise ValueError
  end.

(** ** The value scaler *)

Definition scale_value (value in_min in_max out_min out_max : pyval)
  : result Z :=
  m ← py_min in_max value;
  value ← py_max in_min m;
  in_span ← py_sub in_max in_min;
  out_span ← py_sub out_max out_min;
  d ← py_sub value in_min;
  scaled ← float_div (float_ d) (float_ in_span);
  s ← py_add_float out_min (py_float_mul scaled out_span);
  int_of_float s.

(** Literals: [Int 3] is the int [3], [Flt (1#2)] the float [0.5]. *)
Definition Int (z : Z) : pyval := PyNum (PyInt z).
Definition Flt (q : Q) : pyval := PyNum (PyFloat (Finite q)).

(** ** [int()] on an arbitrary argument *)

(** ASCII characters that [str.isspace] accepts. *)
Definition is_space (c : ascii) : bool :=
  let n := Z.of_nat (nat_of_ascii c) in
  (9 <=? n) && (n <=? 13) || (28 <=? n) && (n <=? 32).

Definition digit_of (c : ascii) : option Z :=
  let n := Z.of_nat (nat_of_ascii c) in
  if (48 <=? n) && (n <=? 57) then Some (n - 48) else None.

Fixpoint lstrip (l : list ascii) : list ascii :=
  match l with
  | c :: l' => if is_space c then lstrip l' else l
  | [] => []
  end.

Definition strip (l : list ascii) : list ascii :=
  rev (lstrip (rev (lstrip l))).

(** Decimal digits, single underscores allowed between two digits. *)
Fixpoint parse_digits (acc : Z) (after_digit : bool) (l : list ascii)
  : option Z :=
  match l with
  | [] => if after_digit then Some acc else None
  | c :: l' =>
      match digit_of c with
      | Some d => parse_digits (10 * acc + d) true l'
      | None =>
          if Ascii.eqb c "_"%char && after_digit then parse_digits acc false l'
          else None
      end
  end.

(** [int(s)] for a string, base 10 (ASCII digits only). *)
Definition int_of_str (s : string) : result Z :=
  let parsed :=
    match strip (list_ascii_of_string s) with
    | "-"%char :: l => Z.opp <$> parse_digits 0 false l
    | "+"%char :: l => parse_digits 0 false l
    | l => parse_digits 0 false l
    end in
  match parsed with
  | Some z => Ok z
  | None => Raise ValueError
  end.

(** [int(v)] *)
Definition py_int (v : pyval) : result Z :=
  match v with
  | PyNum (PyInt z) => Ok z
  | PyNum (PyFloat x) => int_of_float x
  | PyBool b => Ok (Z.b2z b)
  | PyStr s => int_of_str s
  | PyNone => Raise TypeError
  end.

(** [args[0]] *)
Definition first_arg (args : list pyval) : result pyval :=
  match args with
  | a :: _ => Ok a
  | [] => Raise IndexError
  end.

(** [d[key]] for a key that may be missing. *)
Definition getitem {A : Type} (entry : option A) : result A :=
  match entry with
  | Some a => Ok a
  | None => Raise KeyError
  end.

(** ** MIDI messages (the [mido] library) *)

Inductive Message : Set :=
| note_on (channel note velocity : Z)
| control_change (channel control value : Z).

(** [mido] checks every field when a message is built: a channel outside
    0..15 or a data byte outside 0..127 is a [ValueError].  A message has a
    non-zero length, so [if msg:] holds for every message. *)
Definition check_channel (channel : Z) : result unit :=
  if (0 <=? channel) && (channel <=? 15) then Ok tt else Raise ValueError.

Definition check_data_byte (value : Z) : result unit :=
  if (0 <=? value) && (value <=? 127) then Ok tt else Raise ValueError.

Definition Message_note_on (channel note velocity : Z) : result Message :=
  check_channel channel;; check_data_byte note;; check_data_byte velocity;;
  mret (note_on channel note velocity).

Definition Message_control_change (channel control value : Z)
  : result Message :=
  check_channel channel;; check_data_byte control;; check_data_byte value;;
  mret (control_change channel control value).

(** ** The mapping table *)

(** The [value_map] dictionary of a [cc_absolute] entry. *)
Record value_map : Set := {
  in_min : pyval;
  in_max : pyval;
  out_min : pyval;
  out_max : pyval
}.

(** One entry of [MIDI_MAPPING].  The keys ['note'], ['control'] and
    ['value_map'] may be missing; reading a missing key is a [KeyError]. *)
Record mapping : Set := {
  type : string;
  channel : Z;
  note : option Z;
  control : option Z;
  v_map : option value_map
}.

Definition MIDI_MAPPING : gmap string mapping :=
  <["/tangent/bt/A/press" :=
      {| type := "note_on_off"; channel := 0; note := Some 60;
         control := None; v_map := None |}]>
  (<["/tangent/kn/A/delta" :=
      {| type := "cc_relative"; channel := 0; note := None;
         control := Some 20; v_map := None |}]>
  (<["/tangent/wh/A/delta" :=
      {| type := "cc_relative"; channel := 0; note := None;
         control := Some 21; v_map := None |}]>
  (<["/tangent/sl/A/value" :=
      {| type := "cc_absolute"; channel := 0; note := None;
         control := Some 22;
         v_map := Some {| in_min := Flt 0; in_max := Flt 1;
                          out_min := Int 0; out_max := Int 127 |} |}]>
   ∅))).

(** ** Global state and the handler monad *)

(** What a [print] call writes. *)
Inductive line : Set :=
| Received (address : string) (args : list pyval)
| Sending (msg : Message)
| Error (address : string) (e : exn).

(** The mutable globals the handler touches. *)
Record world : Type := {
  cc_values : gmap Z Z;
  midi_out_port : list Message;   (* messages sent, oldest first *)
  console : list line             (* lines printed, oldest first *)
}.

Definition M (A : Type) : Type := world → world * result A.

#[global] Instance M_ret : MRet M := fun A a w => (w, Ok a).
#[global] Instance M_bind : MBind M := fun A B k m w =>
  match m w with
  | (w', Ok a) => k a w'
  | (w', Raise e) => (w', Raise e)
  end.

(** Run pure code that may raise. *)
Definition lift {A : Type} (r : result A) : M A := fun w => (w, r).

(** [try: body except Exception as e: handler(e)] *)
Definition try_except {A : Type} (body : M A) (handler : exn → M A) : M A :=
  fun w =>
    match body w with
    | (w', Ok a) => (w', Ok a)
    | (w', Raise e) => handler e w'
    end.

Definition printed (w : world) (l : line) : world :=
  {| cc_values := cc_values w; midi_out_port := midi_out_port w;
     console := console w ++ [l] |}.

Definition sent (w : world) (msg : Message) : world :=
  {| cc_values := cc_values w; midi_out_port := midi_out_port w ++ [msg];
     console := console w |}.

Definition stored (w : world) (key v : Z) : world :=
  {| cc_values := <[key := v]> (cc_values w);
     midi_out_port := midi_out_port w; console := console w |}.

Definition print (l : line) : M unit := fun w => (printed w l, Ok tt).

(** [midi_out_port.send(msg)] *)
Definition send (msg : Message) : M unit := fun w => (sent w msg, Ok tt).

(** [key in cc_values] *)
Definition cc_contains (key : Z) : M bool := fun w =>
  (w, Ok (bool_decide (is_Some (cc_values w !! key)))).

(** [cc_values[key]] *)
Definition cc_get (key : Z) : M Z := fun w =>
  (w, getitem (cc_values w !! key)).

(** [cc_values[key] = v] *)
Definition cc_set (key v : Z) : M unit := fun w => (stored w key v, Ok tt).

(** ** The handler *)

(** A decoded OSC packet: address and argument tuple. *)
Definition event : Type := string * list pyval.

Section Handler.

(** The mapping table in use: [MIDI_MAPPING] as shipped, or as customised. *)
Variable table : gmap string mapping.

(** The body of the [try] block up to the assignment of [msg]. *)
Definition translate (mapping : mapping) (args : list pyval)
  : M (option Message) :=
  if String.eqb (type mapping) "note_on_off" then
    a ← lift (first_arg args);
    positive ← lift (py_gt a (Int 0));
    let velocity := if positive : bool then 127 else 0 in
    note ← lift (getitem (note mapping));
    msg ← lift (Message_note_on (channel mapping) note velocity);
    mret (Some msg)
  else if String.eqb (type mapping) "cc_absolute" then
    osc_val ← lift (first_arg args);
    v_map ← lift (getitem (v_map mapping));
    midi_val ← lift (scale_value osc_val (in_min v_map) (in_max v_map)
                                 (out_min v_map) (out_max v_map));
    ctl ← lift (getitem (control mapping));
    msg ← lift (Message_control_change (channel mapping) ctl midi_val);
    mret (Some msg)
  else if String.eqb (type mapping) "cc_relative" then
    a ← lift (first_arg args);
    delta ← lift (py_int a);
    control ← lift (getitem (control mapping));
    present ← cc_contains control;
    (if present : bool then mret tt else cc_set control 64);;
    current ← cc_get control;
    cc_set control (Z.max 0 (Z.min 127 (current + delta)));;
    value ← cc_get control;
    msg ← lift (Message_control_change (channel mapping) control value);
    mret (Some msg)
  else mret None.

Definition osc_handler (address : string) (args : list pyval) : M unit :=
  print (Received address args);;
  match table !! address with
  | Some mapping =>
      try_except
        (msg ← translate mapping args;
         match msg with
         | Some msg => print (Sending msg);; send msg
         | None => mret tt
         end)
        (fun e => print (Error address e))
  | None => mret tt
  end.

(** The OSC server calls the handler once per packet, in arrival order. *)
Fixpoint serve (events : list event) : M unit :=
  match events with
  | [] => mret tt
  | (address, args) :: rest => osc_handler address args;; serve rest
  end.

Definition initial_world : world :=
  {| cc_values := ∅; midi_out_port := []; console := [] |}.

(** [main]: open the virtual port, then serve until interrupted.
    [open_output] is what [mido.open_output] does; [events] are the packets
    that arrive before the interrupt.  [None] is the early [return]. *)
Definition main (open_output : result unit) (events : list event)
  : option world :=
  match open_output with
  | Raise _ => None
  | Ok _ => Some (fst (serve events initial_world))
  end.

End Handler.

(** The messages one event puts on the port. *)
Definition emitted (table : gmap string mapping) (address : string)
  (args : list pyval) (w : world) : list Message :=
  drop (length (midi_out_port w))
       (midi_out_port (fst (osc_handler table address args w))).

(** * Notions used in the statements *)

(** ** Rules, tables and events *)

(** A mapping rule of the data model: channel in 0..15, note and control in
    0..127. *)
Definition well_formed (m : mapping) : Prop :=
  0 <= channel m <= 15 ∧
  (∀ n, note m = Some n → 0 <= n <= 127) ∧
  (∀ c, control m = Some c → 0 <= c <= 127).

(** The MIDI target of an entry: its note for a button, else its control. *)
Definition target (m : mapping) : option Z :=
  if String.eqb (type m) "note_on_off" then note m else control m.

(** The rational value of a finite number; [None] for anything else. *)
Definition real_of (v : pyval) : option Q :=
  match as_number v with
  | Some n => match float_ n with Finite q => Some q | _ => None end
  | None => None
  end.

(** The finite number an event carries as its first argument, if any. *)
Definition first_real (args : list pyval) : option Q :=
  match args with
  | a :: _ => real_of a
  | [] => None
  end.

(** [x <= y] on floats. *)
Definition float_le (x y : pyfloat) : bool :=
  match x, y with
  | NaN, _ | _, NaN => false
  | Finite a, Finite b => Qle_bool a b
  | Inf true, _ => true
  | _, Inf false => true
  | Inf false, _ => false
  | Finite _, Inf true => false
  end.

(** [a <= b] on numbers. *)
Definition num_le (a b : number) : bool := float_le (float_ a) (float_ b).

(** The validation the specification describes for one entry (the source has
    no such check): channel in 0..15, target in 0..127, and for a
    [cc_absolute] entry [in_min < in_max] and [out_min <= out_max]. *)
Definition spec_valid_entry (m : mapping) : bool :=
  (0 <=? channel m) && (channel m <=? 15) &&
  match target m with
  | Some t => (0 <=? t) && (t <=? 127)
  | None => false
  end &&
  (if String.eqb (type m) "cc_absolute" then
     match v_map m with
     | Some vm =>
         match as_number (in_min vm), as_number (in_max vm),
               as_number (out_min vm), as_number (out_max vm) with
         | Some a, Some b, Some c, Some d => num_lt a b && num_le c d
         | _, _, _, _ => false
         end
     | None => false
     end
   else true).

Definition spec_valid_table (table : gmap string mapping) : bool :=
  forallb (fun entry => spec_valid_entry (snd entry)) (map_to_list table).

(** An entry that can never produce a MIDI message. *)
Definition unusable (m : mapping) : Prop :=
  ¬ (0 <= channel m <= 15) ∨
  (∃ t, target m = Some t ∧ ¬ (0 <= t <= 127)) ∨
  (type m = "cc_absolute" ∧
   ∃ vm q1 q2, v_map m = Some vm ∧ real_of (in_min vm) = Some q1 ∧
               real_of (in_max vm) = Some q2 ∧ (q1 == q2)%Q).


(** ** Tables of the scenarios *)

(** A button bound to ["/x/press"]. *)
Definition press_table : gmap string mapping :=
  {["/x/press" := {| type := "note_on_off"; channel := 0; note := Some 60;
                     control := None; v_map := None |}]}.

(** The shipped table with an entry of a type the handler does not know. *)
Definition pitch_bend_table : gmap string mapping :=
  <["/tangent/wh/B/bend" :=
      {| type := "pitch_bend"; channel := 0; note := None;
         control := Some 1; v_map := None |}]> MIDI_MAPPING.

(** Two knobs on different channels that use the same controller number. *)
Definition two_deck_table : gmap string mapping :=
  <["/deck/a/knob" :=
      {| type := "cc_relative"; channel := 0; note := None;
         control := Some 20; v_map := None |}]>
  (<["/deck/b/knob" :=
      {| type := "cc_relative"; channel := 1; note := None;
         control := Some 20; v_map := None |}]> ∅).

(** The shipped table with one more knob, on a channel MIDI does not have. *)
Definition channel_16_table : gmap string mapping :=
  <["/tangent/kn/B/delta" :=
      {| type := "cc_relative"; channel := 16; note := None;
         control := Some 23; v_map := None |}]> MIDI_MAPPING.

(** ** The three branches of [translate], taken apart *)

(** The [note_on_off] branch: it reads no state. *)
Definition note_message (m : mapping) (args : list pyval) : result Message :=
  a ← first_arg args;
  positive ← py_gt a (Int 0);
  note ← getitem (note m);
  Message_note_on (channel m) note (if positive : bool then 127 else 0).

(** The [cc_absolute] branch: it reads no state either. *)
Definition absolute_message (m : mapping) (args : list pyval)
  : result Message :=
  osc_val ← first_arg args;
  vm ← getitem (v_map m);
  midi_val ← scale_value osc_val (in_min vm) (in_max vm)
                         (out_min vm) (out_max vm);
  ctl ← getitem (control m);
  Message_control_change (channel m) ctl midi_val.

(** The extraction steps of the [cc_relative] branch, which come before any
    write to [cc_values]. *)
Definition relative_inputs (m : mapping) (args : list pyval)
  : result (Z * Z) :=
  a ← first_arg args; delta ← py_int a; control ← getitem (control m);
  mret (delta, control).

(** The value a delta event leaves in [cc_values], and sends. *)
Definition accumulate (prior : option Z) (delta : Z) : Z :=
  Z.max 0 (Z.min 127 (default 64 prior + delta)).

(** The values a run of deltas produces, starting from what is stored. *)
Fixpoint accumulated (prior : option Z) (deltas : list Z) : list Z :=
  match deltas with
  | [] => []
  | d :: ds =>
      let v := accumulate prior d in v :: accumulated (Some v) ds
  end.

(** ** The handler as a function of [cc_values] alone *)

Definition with_cc (w : world) (cc : gmap Z Z) : world :=
  {| cc_values := cc; midi_out_port := midi_out_port w;
     console := console w |}.

(** What [translate] does to [cc_values], and what it returns. *)
Definition translate_on (m : mapping) (args : list pyval) (cc : gmap Z Z)
  : gmap Z Z * result (option Message) :=
  if String.eqb (type m) "note_on_off" then
    (cc, Some <$> note_message m args)
  else if String.eqb (type m) "cc_absolute" then
    (cc, Some <$> absolute_message m args)
  else if String.eqb (type m) "cc_relative" then
    match relative_inputs m args with
    | Raise e => (cc, Raise e)
    | Ok (delta, c) =>
        let v := accumulate (cc !! c) delta in
        (<[c := v]> cc, Some <$> Message_control_change (channel m) c v)
    end
  else (cc, Ok None).

(** The new [cc_values] and the messages sent, for one event. *)
Definition handle_on (table : gmap string mapping) (address : string)
  (args : list pyval) (cc : gmap Z Z) : gmap Z Z * list Message :=
  match table !! address with
  | None => (cc, [])
  | Some m =>
      match translate_on m args cc with
      | (cc', Ok (Some msg)) => (cc', [msg])
      | (cc', _) => (cc', [])
      end
  end.

(** The same for a run of events. *)
Fixpoint serve_on (table : gmap string mapping) (events : list event)
  (cc : gmap Z Z) : gmap Z Z * list Message :=
  match events with
  | [] => (cc, [])
  | (address, args) :: rest =>
      let s := handle_on table address args cc in
      let t := serve_on table rest (fst s) in
      (fst t, snd s ++ snd t)
  end.

(** ** The scaler, taken apart *)

(** Line 82 of the source: the clamp. *)
Definition clamp (value in_min in_max : pyval) : result pyval :=
  m ← py_min in_max value; py_max in_min m.

(** Lines 84 to 87: what is done with the clamped value. *)
Definition scale_clamped (value in_min in_max out_min out_max : pyval)
  : result Z :=
  in_span ← py_sub in_max in_min;
  out_span ← py_sub out_max out_min;
  d ← py_sub value in_min;
  scaled ← float_div (float_ d) (float_ in_span);
  s ← py_add_float out_min (py_float_mul scaled out_span);
  int_of_float s.



(** What [<] looks at in a value. *)
Inductive ordered : Set :=
| ONumber (x : pyfloat)
| OString (s : string)
| ONone.

Definition order_view (v : pyval) : ordered :=
  match v with
  | PyNum n => ONumber (float_ n)
  | PyBool b => ONumber (Finite (inject_Z (Z.b2z b)))
  | PyStr s => OString s
  | PyNone => ONone
  end.

Definition ordered_lt (a b : ordered) : result bool :=
  match a, b with
  | ONumber x, ONumber y => Ok (float_lt x y)
  | OString s, OString t => Ok (String.ltb s t)
  | _, _ => Raise TypeError
  end.

(** ** Notions for the properties of the whole handler *)

(** A message a MIDI device accepts. *)
Definition valid_message (msg : Message) : Prop :=
  match msg with
  | note_on ch n v => 0 <= ch <= 15 ∧ 0 <= n <= 127 ∧ 0 <= v <= 127
  | control_change ch c v => 0 <= ch <= 15 ∧ 0 <= c <= 127 ∧ 0 <= v <= 127
  end.

(** What the handler prints after the "Received" line, given how the
    translation ended. *)
Definition outcome_lines (address : string) (r : result (option Message))
  : list line :=
  match r with
  | Ok (Some msg) => [Sending msg]
  | Ok None => []
  | Raise e => [Error address e]
  end.

(** What it sends. *)
Definition outcome_messages (r : result (option Message)) : list Message :=
  match r with
  | Ok (Some msg) => [msg]
  | _ => []
  end.

(** The messages of the "Sending" lines of a console, oldest first. *)
Fixpoint sending_lines (console : list line) : list Message :=
  match console with
  | [] => []
  | Sending msg :: rest => msg :: sending_lines rest
  | _ :: rest => sending_lines rest
  end.

(** The packets of its "Received" lines. *)
Fixpoint received_lines (console : list line) : list event :=
  match console with
  | [] => []
  | Received address args :: rest => (address, args) :: received_lines rest
  | _ :: rest => received_lines rest
  end.

(** The running sums of a list of deltas. *)
Fixpoint running (start : Z) (deltas : list Z) : list Z :=
  match deltas with
  | [] => []
  | d :: ds => (start + d) :: running (start + d) ds
  end.

(** * Properties *)

(** Unfold the monad operations, and nothing else. *)
Ltac unfold_monads :=
  cbv beta iota delta
    [mbind M_bind result_bind lift mret M_ret result_ret fmap result_fmap].

(** ** The handler, step by step *)

Lemma osc_handler_unfold table address args w :
  osc_handler table address args w =
    let w1 := printed w (Received address args) in
    match table !! address with
    | None => (w1, Ok tt)
    | Some m =>
        match translate m args w1 with
        | (w2, Ok (Some msg)) => (sent (printed w2 (Sending msg)) msg, Ok tt)
        | (w2, Ok None) => (w2, Ok tt)
        | (w2, Raise e) => (printed w2 (Error address e), Ok tt)
        end
    end.
Proof.
  unfold osc_handler, mbind, M_bind, print, try_except; simpl.
  destruct (table !! address) as [m|]; [|reflexivity].
  destruct (translate m args _) as [w2 [[msg|]|e]]; reflexivity.
Qed.

Lemma translate_relative m args w :
  type m = "cc_relative" →
  translate m args w =
    match relative_inputs m args with
    | Raise e => (w, Raise e)
    | Ok (delta, c) =>
        let v := accumulate (cc_values w !! c) delta in
        (stored w c v, Some <$> Message_control_change (channel m) c v)
    end.
Proof.
  intros Ht. unfold translate, relative_inputs. rewrite Ht. simpl.
  unfold mbind, M_bind, lift; simpl.
  destruct (first_arg args) as [a|e]; simpl; [|reflexivity].
  destruct (py_int a) as [delta|e]; simpl; [|reflexivity].
  destruct (control m) as [c|]; simpl; [|reflexivity].
  unfold cc_contains, cc_get, cc_set, accumulate, mret, M_ret; simpl.
  destruct (cc_values w !! c) as [cur|] eqn:Hc; simpl.
  - rewrite Hc. simpl. rewrite lookup_insert_eq. simpl.
    destruct (Message_control_change _ _ _); reflexivity.
  - rewrite lookup_insert_eq. simpl. rewrite lookup_insert_eq. simpl.
    unfold stored. simpl. rewrite insert_insert_eq.
    destruct (Message_control_change _ _ _); reflexivity.
Qed.

Lemma translate_note m args w :
  type m = "note_on_off" →
  translate m args w = (w, Some <$> note_message m args).
Proof.
  intros Ht. unfold translate, note_message. rewrite Ht.
  change ("note_on_off" =? "note_on_off")%string with true.
  unfold_monads.
  destruct (first_arg args) as [a|e]; [|reflexivity].
  destruct (py_gt a (Int 0)) as [p|e]; [|reflexivity].
  destruct (getitem (note m)) as [n|]; [|reflexivity].
  destruct (Message_note_on _ _ _); reflexivity.
Qed.

Lemma translate_absolute m args w :
  type m = "cc_absolute" →
  translate m args w = (w, Some <$> absolute_message m args).
Proof.
  intros Ht. unfold translate, absolute_message. rewrite Ht.
  change ("cc_absolute" =? "note_on_off")%string with false.
  change ("cc_absolute" =? "cc_absolute")%string with true.
  unfold_monads.
  destruct (first_arg args) as [a|e]; [|reflexivity].
  destruct (getitem (v_map m)) as [vm|]; [|reflexivity].
  destruct (scale_value _ _ _ _ _) as [v|e]; [|reflexivity].
  destruct (getitem (control m)) as [c|]; [|reflexivity].
  destruct (Message_control_change _ _ _); reflexivity.
Qed.

Lemma translate_other m args w :
  type m ≠ "note_on_off" → type m ≠ "cc_absolute" →
  type m ≠ "cc_relative" →
  translate m args w = (w, Ok None).
Proof.
  intros H1 H2 H3. unfold translate.
  apply String.eqb_neq in H1, H2, H3. rewrite H1, H2, H3. reflexivity.
Qed.

Lemma emitted_app table address args w l :
  midi_out_port (fst (osc_handler table address args w))
    = midi_out_port w ++ l →
  emitted table address args w = l.
Proof. intros H. unfold emitted. rewrite H. apply drop_app_length. Qed.

(** A well-formed channel and data byte pass [mido]'s checks. *)
Lemma Message_note_on_ok ch n v :
  0 <= ch <= 15 → 0 <= n <= 127 → 0 <= v <= 127 →
  Message_note_on ch n v = Ok (note_on ch n v).
Proof.
  intros Hc Hn Hv. unfold Message_note_on, check_channel, check_data_byte.
  repeat match goal with
  | |- context [(?a <=? ?b)] =>
      rewrite (proj2 (Z.leb_le a b)) by lia
  end. reflexivity.
Qed.

Lemma Message_control_change_ok ch c v :
  0 <= ch <= 15 → 0 <= c <= 127 → 0 <= v <= 127 →
  Message_control_change ch c v = Ok (control_change ch c v).
Proof.
  intros Hc Hn Hv.
  unfold Message_control_change, check_channel, check_data_byte.
  repeat match goal with
  | |- context [(?a <=? ?b)] =>
      rewrite (proj2 (Z.leb_le a b)) by lia
  end. reflexivity.
Qed.

(** ** Unmapped addresses and unknown rule types *)

(** C8. An event whose address is not in the mapping table is ignored, whatever
    its arguments: the handler returns normally, sends nothing, leaves
    [cc_values] alone and prints only the "Received" line, no error. *)
Theorem unmapped_address_ignored table address args w :
  table !! address = None →
  let r := osc_handler table address args w in
  snd r = Ok tt ∧
  emitted table address args w = [] ∧
  midi_out_port (fst r) = midi_out_port w ∧
  cc_values (fst r) = cc_values w ∧
  console (fst r) = console w ++ [Received address args].
Proof.
  intros Hnone. unfold emitted. rewrite osc_handler_unfold, Hnone. simpl.
  rewrite drop_all. auto.
Qed.

Lemma unmapped_address_ignored_witness :
  emitted MIDI_MAPPING "/tangent/unknown" [PyStr "x"; Int 1] initial_world
    = [].
Proof.
  apply (unmapped_address_ignored MIDI_MAPPING "/tangent/unknown"
           [PyStr "x"; Int 1] initial_world).
  vm_compute. reflexivity.
Defined.

(** C10. A mapped address whose ["type"] is none of the three known strings
    falls through every branch: no message, no exception, no state change,
    and no error line. *)
Theorem unknown_type_falls_through table address m args w :
  table !! address = Some m →
  type m ≠ "note_on_off" → type m ≠ "cc_absolute" →
  type m ≠ "cc_relative" →
  let r := osc_handler table address args w in
  snd r = Ok tt ∧
  emitted table address args w = [] ∧
  midi_out_port (fst r) = midi_out_port w ∧
  cc_values (fst r) = cc_values w ∧
  console (fst r) = console w ++ [Received address args].
Proof.
  intros Hm H1 H2 H3. unfold emitted.
  rewrite osc_handler_unfold, Hm. simpl.
  rewrite translate_other by assumption. simpl.
  rewrite drop_all. auto.
Qed.

Lemma unknown_type_falls_through_witness :
  let r := osc_handler pitch_bend_table "/tangent/wh/B/bend" [Int 5]
             initial_world in
  snd r = Ok tt ∧
  emitted pitch_bend_table "/tangent/wh/B/bend" [Int 5] initial_world = [] ∧
  midi_out_port (fst r) = [] ∧
  cc_values (fst r) = ∅ ∧
  console (fst r) = [Received "/tangent/wh/B/bend" [Int 5]].
Proof.
  apply (unknown_type_falls_through pitch_bend_table "/tangent/wh/B/bend"
           {| type := "pitch_bend"; channel := 0; note := None;
              control := Some 1; v_map := None |} [Int 5] initial_world);
    [vm_compute; reflexivity | discriminate | discriminate | discriminate].
Defined.

(** ** Buttons: [note_on_off] *)

Lemma py_lt_numbers a b x y :
  as_number a = Some x → as_number b = Some y →
  py_lt a b = Ok (num_lt x y).
Proof.
  intros Ha Hb. destruct a, b; simpl in *; try discriminate;
    inversion Ha; inversion Hb; reflexivity.
Qed.

(** C7. An event for a [note_on_off] rule whose first argument is a number
    always sends exactly one [note_on] message, with velocity 127 when the
    argument is greater than zero and 0 otherwise.  The rule is a mapping
    rule of the data model: channel in 0..15 and note in 0..127. *)
Theorem note_on_off_velocity table address m n a x rest w :
  table !! address = Some m →
  type m = "note_on_off" →
  note m = Some n →
  well_formed m →
  as_number a = Some x →
  let velocity := if num_lt (PyInt 0) x then 127 else 0 in
  let r := osc_handler table address (a :: rest) w in
  snd r = Ok tt ∧
  emitted table address (a :: rest) w = [note_on (channel m) n velocity] ∧
  midi_out_port (fst r) = midi_out_port w ++ [note_on (channel m) n velocity] ∧
  cc_values (fst r) = cc_values w.
Proof.
  intros Hm Ht Hn (Hch & Hnote & _) Ha velocity r.
  specialize (Hnote n Hn).
  assert (Hr : r = (sent (printed (printed w (Received address (a :: rest)))
                             (Sending (note_on (channel m) n velocity)))
                          (note_on (channel m) n velocity), Ok tt)).
  { unfold r. rewrite osc_handler_unfold, Hm. cbv zeta.
    rewrite translate_note by assumption.
    unfold note_message, first_arg. rewrite Hn. unfold_monads.
    unfold py_gt, getitem.
    rewrite (py_lt_numbers (Int 0) a (PyInt 0) x) by (assumption || reflexivity).
    rewrite Message_note_on_ok; [reflexivity|assumption..|].
    destruct (num_lt (PyInt 0) x); lia. }
  assert (Hp : midi_out_port (fst r)
               = midi_out_port w ++ [note_on (channel m) n velocity]).
  { rewrite Hr. reflexivity. }
  split; [rewrite Hr; reflexivity|].
  split; [apply emitted_app; exact Hp|].
  split; [exact Hp|]. rewrite Hr. reflexivity.
Qed.

Lemma note_on_off_velocity_witness :
  emitted press_table "/x/press" [Int 1] initial_world = [note_on 0 60 127] ∧
  emitted press_table "/x/press" [Int 0] initial_world = [note_on 0 60 0].
Proof.
  split.
  - apply (note_on_off_velocity press_table "/x/press"
             {| type := "note_on_off"; channel := 0; note := Some 60;
                control := None; v_map := None |} 60 (Int 1) (PyInt 1) []
             initial_world); try reflexivity.
    split; [simpl; lia|]. split; [|discriminate].
    intros n Hn. simpl in Hn. inversion Hn. lia.
  - apply (note_on_off_velocity press_table "/x/press"
             {| type := "note_on_off"; channel := 0; note := Some 60;
                control := None; v_map := None |} 60 (Int 0) (PyInt 0) []
             initial_world); try reflexivity.
    split; [simpl; lia|]. split; [|discriminate].
    intros n Hn. simpl in Hn. inversion Hn. lia.
Defined.

(** ** Knobs and wheels: [cc_relative] *)

Lemma Qtrunc_inject_Z z : Qtrunc (inject_Z z) = z.
Proof. unfold Qtrunc. simpl. apply Z.quot_1_r. Qed.

Lemma py_int_real a q : real_of a = Some q → py_int a = Ok (Qtrunc q).
Proof.
  unfold real_of. destruct a as [[z|[q'|s|]]|b|s|]; simpl; intros H;
    inversion H; subst; try reflexivity; now rewrite Qtrunc_inject_Z.
Qed.

Lemma accumulate_range prior delta : 0 <= accumulate prior delta <= 127.
Proof. unfold accumulate. lia. Qed.

(** One delta event under a well-formed [cc_relative] rule. *)
Lemma relative_step table address m c a d rest w :
  table !! address = Some m →
  type m = "cc_relative" →
  control m = Some c →
  well_formed m →
  py_int a = Ok d →
  let v := accumulate (cc_values w !! c) d in
  let msg := control_change (channel m) c v in
  osc_handler table address (a :: rest) w =
    (sent (printed (stored (printed w (Received address (a :: rest))) c v)
                   (Sending msg)) msg, Ok tt).
Proof.
  intros Hm Ht Hc (Hch & _ & Hctl) Hd v msg.
  specialize (Hctl c Hc).
  rewrite osc_handler_unfold, Hm. cbv zeta.
  rewrite translate_relative by assumption.
  unfold relative_inputs, first_arg. rewrite Hc. unfold_monads.
  rewrite Hd. unfold getitem. simpl cc_values.
  rewrite Message_control_change_ok
    by (assumption || apply accumulate_range).
  reflexivity.
Qed.

Lemma accumulated_range deltas : ∀ prior,
  Forall (fun v => 0 <= v <= 127) (accumulated prior deltas).
Proof.
  induction deltas as [|d ds IH]; intros prior; simpl; constructor.
  - apply accumulate_range.
  - apply IH.
Qed.

Lemma accumulated_saturates_high deltas : ∀ prior,
  Forall (fun d => 127 <= d) deltas →
  (∀ p, prior = Some p → 0 <= p) →
  Forall (fun v => v = 127) (accumulated prior deltas).
Proof.
  induction deltas as [|d ds IH]; intros prior Hd Hp; simpl; constructor.
  - inversion Hd; subst. unfold accumulate.
    destruct prior as [p|]; simpl; [specialize (Hp p eq_refl)|]; lia.
  - inversion Hd; subst. apply IH; [assumption|].
    intros p Hp'. inversion Hp'. pose proof (accumulate_range prior d). lia.
Qed.

Lemma accumulated_saturates_low deltas : ∀ prior,
  Forall (fun d => d <= -127) deltas →
  (∀ p, prior = Some p → p <= 127) →
  Forall (fun v => v = 0) (accumulated prior deltas).
Proof.
  induction deltas as [|d ds IH]; intros prior Hd Hp; simpl; constructor.
  - inversion Hd; subst. unfold accumulate.
    destruct prior as [p|]; simpl; [specialize (Hp p eq_refl)|]; lia.
  - inversion Hd; subst. apply IH; [assumption|].
    intros p Hp'. inversion Hp'. pose proof (accumulate_range prior d). lia.
Qed.

Lemma serve_deltas table address m c :
  table !! address = Some m →
  type m = "cc_relative" →
  control m = Some c →
  well_formed m →
  ∀ argss qs, Forall2 (fun args q => first_real args = Some q) argss qs →
  ∀ w,
  let values := accumulated (cc_values w !! c) (map Qtrunc qs) in
  let r := serve table (map (pair address) argss) w in
  snd r = Ok tt ∧
  midi_out_port (fst r)
    = midi_out_port w ++ map (control_change (channel m) c) values ∧
  cc_values (fst r) !! c
    = from_option Some (cc_values w !! c) (last values).
Proof.
  intros Hm Ht Hc Hwf argss qs Hall.
  induction Hall as [|args q argss qs Hq Hall IH]; intros w.
  - simpl. rewrite app_nil_r. auto.
  - destruct args as [|a rest]; [discriminate|]. simpl in Hq.
    cbn [map serve accumulated]. cbv zeta. unfold_monads.
    rewrite (relative_step table address m c a (Qtrunc q) rest w)
      by (assumption || now apply py_int_real).
    cbv zeta.
    set (v := accumulate (cc_values w !! c) (Qtrunc q)).
    set (w' := sent _ _).
    assert (Hw' : cc_values w' !! c = Some v).
    { unfold w'. simpl. apply lookup_insert_eq. }
    destruct (IH w') as (Hr & Hp & Hv).
    rewrite Hw' in Hp, Hv.
    split; [exact Hr|]. split.
    + rewrite Hp. unfold w'. simpl. rewrite <- app_assoc. reflexivity.
    + rewrite Hv. destruct (accumulated (Some v) (map Qtrunc qs)) eqn:E.
      * reflexivity.
      * change (last (v :: z :: l)) with (last (z :: l)).
        destruct (last (z :: l)) eqn:El; [reflexivity|].
        apply last_None in El. discriminate.
Qed.

(** C4. A run of delta events on one [cc_relative] control.  Each event adds
    its delta, truncated toward zero, to the stored value (64 when nothing is
    stored yet), clamps the sum into 0..127, stores it and sends it.  Every
    value sent is in 0..127; a run of deltas of 127 or more keeps the value
    at 127 and a run of deltas of -127 or less keeps it at 0, however long
    the run. *)
Theorem relative_accumulation table address m c argss qs w :
  table !! address = Some m →
  type m = "cc_relative" →
  control m = Some c →
  well_formed m →
  Forall2 (fun args q => first_real args = Some q) argss qs →
  let deltas := map Qtrunc qs in
  let values := accumulated (cc_values w !! c) deltas in
  let r := serve table (map (pair address) argss) w in
  snd r = Ok tt ∧
  midi_out_port (fst r)
    = midi_out_port w ++ map (control_change (channel m) c) values ∧
  (∀ d ds, deltas = d :: ds →
     head values
       = Some (Z.max 0 (Z.min 127 (default 64 (cc_values w !! c) + d)))) ∧
  (∀ v, last values = Some v → cc_values (fst r) !! c = Some v) ∧
  Forall (fun v => 0 <= v <= 127) values ∧
  (Forall (fun d => 127 <= d) deltas →
     (∀ p, cc_values w !! c = Some p → 0 <= p) →
     Forall (fun v => v = 127) values) ∧
  (Forall (fun d => d <= -127) deltas →
     (∀ p, cc_values w !! c = Some p → p <= 127) →
     Forall (fun v => v = 0) values).
Proof.
  intros Hm Ht Hc Hwf Hall deltas values r.
  destruct (serve_deltas table address m c Hm Ht Hc Hwf argss qs Hall w)
    as (Hr & Hp & Hv).
  split; [exact Hr|]. split; [exact Hp|]. split.
  { intros d ds Hd. unfold values. rewrite Hd. reflexivity. }
  split.
  { intros v Hlast. fold deltas in Hv. fold values in Hv.
    unfold r. rewrite Hv, Hlast. reflexivity. }
  split; [apply accumulated_range|]. split.
  - intros Hbig Hprior. now apply accumulated_saturates_high.
  - intros Hbig Hprior. now apply accumulated_saturates_low.
Qed.

Lemma relative_accumulation_witness :
  let r := serve MIDI_MAPPING
             (map (pair "/tangent/kn/A/delta") [[Int 3]; [Int 3]; [Int (-50)]])
             initial_world in
  midi_out_port (fst r)
    = [control_change 0 20 67; control_change 0 20 70; control_change 0 20 20]
  ∧ cc_values (fst r) !! 20 = Some 20.
Proof.
  pose proof (relative_accumulation MIDI_MAPPING "/tangent/kn/A/delta"
    {| type := "cc_relative"; channel := 0; note := None;
       control := Some 20; v_map := None |} 20
    [[Int 3]; [Int 3]; [Int (-50)]] [3%Q; 3%Q; (-50)%Q] initial_world
    eq_refl eq_refl eq_refl) as H.
  destruct H as (_ & Hp & _ & Hv & _).
  - split; [simpl; lia|]. split; [discriminate|].
    intros c Hc. simpl in Hc. inversion Hc. lia.
  - repeat constructor.
  - split; [exact Hp | apply Hv; reflexivity].
Defined.

(** ** Order facts about Python's [<] *)

Lemma Qlt_bool_iff a b : Qlt_bool a b = true ↔ (a < b)%Q.
Proof.
  unfold Qlt_bool. rewrite negb_true_iff. split.
  - intros H. apply Qnot_le_lt. intros Hle.
    apply Qle_bool_iff in Hle. congruence.
  - intros H. destruct (Qle_bool b a) eqn:E; [|reflexivity].
    apply Qle_bool_iff in E. apply Qlt_not_le in H. contradiction.
Qed.

Lemma Qlt_bool_false a b : Qlt_bool a b = false ↔ (b <= a)%Q.
Proof.
  unfold Qlt_bool. rewrite negb_false_iff. apply Qle_bool_iff.
Qed.

Lemma float_lt_irrefl x : float_lt x x = false.
Proof.
  destruct x as [a|[|]|]; simpl; try reflexivity.
  apply Qlt_bool_false. apply Qle_refl.
Qed.

Lemma float_lt_asym x y : float_lt x y = true → float_lt y x = false.
Proof.
  destruct x as [a|[|]|], y as [b|[|]|]; simpl; try congruence.
  rewrite Qlt_bool_iff, Qlt_bool_false. apply Qlt_le_weak.
Qed.

Lemma float_lt_trans x y z :
  float_lt x y = true → float_lt y z = true → float_lt x z = true.
Proof.
  destruct x as [a|[|]|], y as [b|[|]|], z as [c|[|]|]; simpl;
    try congruence.
  rewrite !Qlt_bool_iff. apply Qlt_trans.
Qed.

Lemma string_ltb_lt s t :
  String.ltb s t = true ↔ OrderedTypeEx.String_as_OT.lt s t.
Proof.
  rewrite <- OrderedTypeEx.String_as_OT.cmp_lt.
  unfold String.ltb, OrderedTypeEx.String_as_OT.cmp.
  destruct (String.compare s t); split; congruence.
Qed.

Lemma string_ltb_irrefl s : String.ltb s s = false.
Proof.
  destruct (String.ltb s s) eqn:E; [|reflexivity].
  apply string_ltb_lt, OrderedTypeEx.String_as_OT.lt_not_eq in E.
  now contradiction E.
Qed.

Lemma string_ltb_trans s t u :
  String.ltb s t = true → String.ltb t u = true → String.ltb s u = true.
Proof.
  rewrite !string_ltb_lt. apply OrderedTypeEx.String_as_OT.lt_trans.
Qed.

Lemma string_ltb_asym s t : String.ltb s t = true → String.ltb t s = false.
Proof.
  intros H. destruct (String.ltb t s) eqn:E; [|reflexivity].
  pose proof (string_ltb_trans _ _ _ H E) as Hs.
  rewrite string_ltb_irrefl in Hs. discriminate.
Qed.

Lemma py_lt_view a b : py_lt a b = ordered_lt (order_view a) (order_view b).
Proof. destruct a, b; reflexivity. Qed.

Lemma ordered_lt_irrefl a b :
  ordered_lt a b = Ok true →
  ordered_lt a a = Ok false ∧ ordered_lt b b = Ok false.
Proof.
  destruct a, b; simpl; try discriminate; intros _;
    now rewrite ?float_lt_irrefl, ?string_ltb_irrefl.
Qed.

Lemma ordered_lt_asym a b :
  ordered_lt a b = Ok true → ordered_lt b a = Ok false.
Proof.
  destruct a, b; simpl; try discriminate; intros H; injection H as H';
    f_equal; [now apply float_lt_asym | now apply string_ltb_asym].
Qed.

Lemma ordered_lt_trans a b c :
  ordered_lt a b = Ok true → ordered_lt b c = Ok true →
  ordered_lt a c = Ok true.
Proof.
  destruct a, b, c; simpl; try discriminate; intros H1 H2;
    injection H1 as H1'; injection H2 as H2'; f_equal.
  - eapply float_lt_trans; eassumption.
  - eapply string_ltb_trans; eassumption.
Qed.

(** Comparable values stay comparable: if [a < b] is defined then [a < c] and
    [b < c] are defined, or raise, together. *)
Lemma ordered_lt_same_kind a b c t :
  ordered_lt a b = Ok t →
  (∃ t1 t2, ordered_lt a c = Ok t1 ∧ ordered_lt b c = Ok t2) ∨
  (ordered_lt a c = Raise TypeError ∧ ordered_lt b c = Raise TypeError).
Proof.
  destruct a, b, c; simpl; try discriminate; intros _; eauto.
Qed.

(** ** Clamping *)

Lemma scale_value_clamp value in_min in_max out_min out_max :
  scale_value value in_min in_max out_min out_max =
    c ← clamp value in_min in_max;
    scale_clamped c in_min in_max out_min out_max.
Proof.
  unfold scale_value, clamp, scale_clamped. unfold_monads.
  destruct (py_min in_max value); [|reflexivity].
  destruct (py_max in_min _); reflexivity.
Qed.

Lemma clamp_below value in_min in_max :
  py_lt value in_min = Ok true →
  clamp value in_min in_max = clamp in_min in_min in_max.
Proof.
  unfold clamp, py_min, py_max, py_gt. rewrite !py_lt_view.
  set (v := order_view value). set (lo := order_view in_min).
  set (hi := order_view in_max). intros Hlt.
  destruct (ordered_lt_irrefl _ _ Hlt) as [_ Hlo].
  pose proof (ordered_lt_asym _ _ Hlt) as Hgt.
  destruct (ordered_lt_same_kind _ _ hi _ Hlt) as [(t1 & t2 & H1 & H2)|[H1 H2]];
    rewrite H1, H2; unfold_monads; [|reflexivity].
  destruct t1, t2; rewrite ?py_lt_view; fold v lo hi;
    rewrite ?Hgt, ?Hlo, ?H2; try reflexivity.
  (* value is not below in_max although in_min is *)
  pose proof (ordered_lt_trans _ _ _ Hlt H2). congruence.
Qed.

Lemma clamp_above value in_min in_max :
  py_gt value in_max = Ok true →
  clamp value in_min in_max = clamp in_max in_min in_max.
Proof.
  unfold clamp, py_min, py_gt. rewrite !py_lt_view. intros Hgt.
  destruct (ordered_lt_irrefl _ _ Hgt) as [Hhi _].
  rewrite (ordered_lt_asym _ _ Hgt), Hhi. reflexivity.
Qed.

(** C9. The scaler clamps its input to the input range: a value below
    [in_min] scales like [in_min] itself and a value above [in_max] like
    [in_max] itself. *)
Theorem scale_value_clamps value in_min in_max out_min out_max :
  (py_lt value in_min = Ok true →
     scale_value value in_min in_max out_min out_max
       = scale_value in_min in_min in_max out_min out_max) ∧
  (py_gt value in_max = Ok true →
     scale_value value in_min in_max out_min out_max
       = scale_value in_max in_min in_max out_min out_max).
Proof.
  split; intros H; rewrite !scale_value_clamp.
  - now rewrite (clamp_below _ _ _ H).
  - now rewrite (clamp_above _ _ _ H).
Qed.

Lemma scale_value_clamps_witness :
  scale_value (Flt (-3)) (Flt 0) (Flt 1) (Int 0) (Int 127) = Ok 0 ∧
  scale_value (Int 5) (Flt 0) (Flt 1) (Int 0) (Int 127) = Ok 127.
Proof.
  split.
  - rewrite (proj1 (scale_value_clamps (Flt (-3)) (Flt 0) (Flt 1)
                      (Int 0) (Int 127)) eq_refl).
    vm_compute. reflexivity.
  - rewrite (proj2 (scale_value_clamps (Int 5) (Flt 0) (Flt 1)
                      (Int 0) (Int 127)) eq_refl).
    vm_compute. reflexivity.
Defined.

(** ** Truncation toward zero *)

Lemma Qtrunc_nonneg a : (0 <= a)%Q → Qtrunc a = Qfloor a.
Proof.
  destruct a as [n d]. unfold Qle, Qtrunc, Qfloor. simpl. intros H.
  apply Z.quot_div_nonneg; lia.
Qed.

Lemma Qtrunc_nonpos a : (a <= 0)%Q → Qtrunc a = Qceiling a.
Proof.
  destruct a as [n d]. unfold Qle, Qtrunc, Qceiling, Qfloor. simpl. intros H.
  rewrite <- (Z.quot_div_nonneg (- n) (Z.pos d)) by lia.
  rewrite Z.quot_opp_l by lia. lia.
Qed.




(** ** The scaler on real numbers *)

Lemma real_of_number a q :
  real_of a = Some q → ∃ n, as_number a = Some n ∧ float_ n = Finite q.
Proof.
  unfold real_of. destruct (as_number a) as [n|]; [|discriminate].
  destruct (float_ n) eqn:E; try discriminate.
  intros H. inversion H; subst. eauto.
Qed.




Lemma py_sub_real a b qa qb :
  real_of a = Some qa → real_of b = Some qb →
  ∃ n q, py_sub a b = Ok n ∧ float_ n = Finite q ∧ (q == qa - qb)%Q.
Proof.
  intros Ha Hb.
  destruct (real_of_number _ _ Ha) as (na & Hna & Hfa).
  destruct (real_of_number _ _ Hb) as (nb & Hnb & Hfb).
  unfold py_sub. rewrite Hna, Hnb.
  destruct na as [x|fa], nb as [y|fb]; simpl in Hfa, Hfb;
    try (injection Hfa as <-); try (injection Hfb as <-); subst.
  - exists (PyInt (x - y)), (inject_Z (x - y)).
    split; [reflexivity|]. split; [reflexivity|].
    unfold Z.sub. rewrite inject_Z_plus, inject_Z_opp. reflexivity.
  - eexists _, _. split; [reflexivity|]. split; [reflexivity|]. reflexivity.
  - eexists _, _. split; [reflexivity|]. split; [reflexivity|]. reflexivity.
  - eexists _, _. split; [reflexivity|]. split; [reflexivity|]. reflexivity.
Qed.












(** Nor is the result within [out_min .. out_max] when a bound is not an
    integer: [int()] truncates past it. *)
Example scale_value_fractional_bound :
  scale_value (Flt 0) (Flt 0) (Flt 1) (Flt (1#2)) (Flt (3#2)) = Ok 0.
Proof. vm_compute. reflexivity. Qed.

(** ** Sliders: [cc_absolute] *)


(** Toward zero also below zero: -63.5 becomes -63, where flooring and
    rounding would both give -64. *)
Example scale_value_negative_half :
  scale_value (Flt (1#2)) (Flt 0) (Flt 1) (Int 0) (Int (-127)) = Ok (-63).
Proof. vm_compute. reflexivity. Qed.


(** ** The handler and its pure core *)

Lemma with_cc_same w : with_cc w (cc_values w) = w.
Proof. destruct w. reflexivity. Qed.

Lemma translate_eq m args w :
  translate m args w =
    (with_cc w (fst (translate_on m args (cc_values w))),
     snd (translate_on m args (cc_values w))).
Proof.
  unfold translate_on.
  destruct (String.eqb (type m) "note_on_off") eqn:E1.
  { apply String.eqb_eq in E1. rewrite translate_note by assumption.
    simpl. now rewrite with_cc_same. }
  destruct (String.eqb (type m) "cc_absolute") eqn:E2.
  { apply String.eqb_eq in E2. rewrite translate_absolute by assumption.
    simpl. now rewrite with_cc_same. }
  destruct (String.eqb (type m) "cc_relative") eqn:E3.
  { apply String.eqb_eq in E3. rewrite translate_relative by assumption.
    destruct (relative_inputs m args) as [[delta c]|e]; simpl.
    - reflexivity.
    - now rewrite with_cc_same. }
  apply String.eqb_neq in E1, E2, E3.
  rewrite translate_other by assumption. simpl. now rewrite with_cc_same.
Qed.

(** The handler never lets an exception out, and its effect on [cc_values]
    and on the port depends on [cc_values] only. *)
Lemma osc_handler_on table address args w :
  let r := osc_handler table address args w in
  let s := handle_on table address args (cc_values w) in
  snd r = Ok tt ∧
  cc_values (fst r) = fst s ∧
  midi_out_port (fst r) = midi_out_port w ++ snd s.
Proof.
  cbv zeta. rewrite osc_handler_unfold. unfold handle_on. cbv zeta.
  destruct (table !! address) as [m|]; simpl.
  - rewrite translate_eq. simpl.
    destruct (translate_on m args (cc_values w)) as [cc' [[msg|]|e]]; simpl;
      rewrite ?app_nil_r; auto.
  - rewrite app_nil_r. auto.
Qed.

Lemma serve_on_eq table events : ∀ w,
  let r := serve table events w in
  let s := serve_on table events (cc_values w) in
  snd r = Ok tt ∧
  cc_values (fst r) = fst s ∧
  midi_out_port (fst r) = midi_out_port w ++ snd s.
Proof.
  induction events as [|[address args] rest IH]; intros w; cbv zeta.
  - simpl. rewrite app_nil_r. auto.
  - cbn [serve serve_on]. unfold_monads.
    destruct (osc_handler_on table address args w) as (Hr & Hc & Hp).
    destruct (osc_handler table address args w) as [w1 r1]. simpl in *.
    subst r1. destruct (IH w1) as (Hr' & Hc' & Hp').
    rewrite Hc in Hc', Hp'. rewrite Hp in Hp'.
    split; [exact Hr'|]. split; [exact Hc'|].
    rewrite Hp'. simpl. now rewrite app_assoc.
Qed.

(** ** What the accumulated state is keyed by *)

Lemma relative_inputs_control m args delta c :
  relative_inputs m args = Ok (delta, c) → control m = Some c.
Proof.
  unfold relative_inputs. unfold_monads.
  destruct (first_arg args); [|discriminate].
  destruct (py_int _); [|discriminate].
  destruct (control m); simpl; [|discriminate].
  intros H. now inversion H.
Qed.

(** C1 as stated fails: the rules for (channel 0, control 20) and
    (channel 1, control 20) share one stored value.  Alone, a zero delta on
    deck B reports the initial 64; after a +3 on deck A it reports 67. *)
Lemma relative_state_shared_counterexample :
  (0, 20) ≠ (1, 20) ∧
  emitted two_deck_table "/deck/b/knob" [Int 0] initial_world
    = [control_change 1 20 64] ∧
  emitted two_deck_table "/deck/b/knob" [Int 0]
    (fst (osc_handler two_deck_table "/deck/a/knob" [Int 3] initial_world))
    = [control_change 1 20 67].
Proof.
  split; [discriminate|]. split; vm_compute; reflexivity.
Qed.

(** C1, as the code has it.  The accumulated value is keyed by the controller
    number alone.  For two [cc_relative] rules whose controller numbers
    differ, an event dispatched through the first leaves the value stored
    for the second untouched, and what it prints, sends and stores does not
    depend on that value. *)
Theorem relative_state_per_control table a1 a2 m1 m2 c1 c2 args w :
  table !! a1 = Some m1 → table !! a2 = Some m2 →
  type m1 = "cc_relative" → type m2 = "cc_relative" →
  control m1 = Some c1 → control m2 = Some c2 →
  c1 ≠ c2 →
  let r := osc_handler table a1 args w in
  cc_values (fst r) !! c2 = cc_values w !! c2 ∧
  ∀ cc, (∀ k, k ≠ c2 → cc !! k = cc_values w !! k) →
    let r' := osc_handler table a1 args (with_cc w cc) in
    snd r' = snd r ∧
    midi_out_port (fst r') = midi_out_port (fst r) ∧
    console (fst r') = console (fst r) ∧
    cc_values (fst r') !! c2 = cc !! c2 ∧
    ∀ k, k ≠ c2 → cc_values (fst r') !! k = cc_values (fst r) !! k.
Proof.
  intros H1 H2 Ht1 Ht2 Hc1 Hc2 Hne r.
  unfold r. rewrite osc_handler_unfold, H1. cbv zeta.
  rewrite translate_relative by assumption.
  destruct (relative_inputs m1 args) as [[delta c]|e] eqn:Hin.
  - pose proof (relative_inputs_control _ _ _ _ Hin) as Hc.
    assert (c = c1) as -> by congruence.
    cbv zeta. split.
    { destruct (Message_control_change _ _ _); simpl;
        now rewrite lookup_insert_ne. }
    intros cc Hcc.
    rewrite osc_handler_unfold, H1. cbv zeta.
    rewrite translate_relative by assumption. rewrite Hin. cbv zeta.
    simpl cc_values. rewrite (Hcc c1 Hne).
    destruct (Message_control_change _ _ _); simpl.
    all: do 3 (split; [reflexivity|]).
    all: split; [now rewrite lookup_insert_ne|].
    all: intros k Hk.
    all: destruct (decide (k = c1)) as [->|Hk1].
    all: rewrite ?lookup_insert_eq, ?lookup_insert_ne by congruence; auto.
  - split; [reflexivity|].
    intros cc Hcc.
    rewrite osc_handler_unfold, H1. cbv zeta.
    rewrite translate_relative by assumption. rewrite Hin. simpl.
    auto.
Qed.

Lemma relative_state_per_control_witness :
  let w := stored initial_world 21 100 in
  cc_values (fst (osc_handler MIDI_MAPPING "/tangent/kn/A/delta" [Int 3] w))
    !! 21 = Some 100.
Proof.
  intros w.
  apply (proj1 (relative_state_per_control MIDI_MAPPING
    "/tangent/kn/A/delta" "/tangent/wh/A/delta"
    {| type := "cc_relative"; channel := 0; note := None;
       control := Some 20; v_map := None |}
    {| type := "cc_relative"; channel := 0; note := None;
       control := Some 21; v_map := None |}
    20 21 [Int 3] w eq_refl eq_refl eq_refl eq_refl eq_refl eq_refl
    ltac:(discriminate))).
Defined.

(** ** Start-up and the mapping table *)

(** C2 as stated fails: a table with an invalid entry does not stop
    [main].  The process serves, and translates events for the valid
    entries of the same table. *)
Lemma invalid_table_served_counterexample :
  spec_valid_table channel_16_table = false ∧
  ∃ w, main channel_16_table (Ok tt)
         [("/tangent/kn/B/delta", [Int 1]); ("/tangent/bt/A/press", [Int 1])]
       = Some w ∧
       midi_out_port w = [note_on 0 60 127].
Proof.
  split; [vm_compute; reflexivity|].
  eexists. split; [reflexivity|]. vm_compute. reflexivity.
Qed.

Lemma check_channel_bad ch :
  ¬ (0 <= ch <= 15) → check_channel ch = Raise ValueError.
Proof.
  intros H. unfold check_channel.
  destruct (0 <=? ch) eqn:E1; destruct (ch <=? 15) eqn:E2; try reflexivity.
  apply Z.leb_le in E1, E2. lia.
Qed.

Lemma check_data_byte_bad v :
  ¬ (0 <= v <= 127) → check_data_byte v = Raise ValueError.
Proof.
  intros H. unfold check_data_byte.
  destruct (0 <=? v) eqn:E1; destruct (v <=? 127) eqn:E2; try reflexivity.
  apply Z.leb_le in E1, E2. lia.
Qed.

Lemma Message_note_on_bad ch n v :
  ¬ (0 <= ch <= 15) ∨ ¬ (0 <= n <= 127) →
  Message_note_on ch n v = Raise ValueError.
Proof.
  intros [H|H]; unfold Message_note_on; unfold_monads.
  - now rewrite check_channel_bad.
  - rewrite (check_data_byte_bad n) by assumption.
    destruct (check_channel ch) as [[]|[]] eqn:E; try reflexivity;
      unfold check_channel in E; destruct (_ && _) in E; discriminate.
Qed.

Lemma Message_control_change_bad ch c v :
  ¬ (0 <= ch <= 15) ∨ ¬ (0 <= c <= 127) →
  Message_control_change ch c v = Raise ValueError.
Proof.
  intros [H|H]; unfold Message_control_change; unfold_monads.
  - now rewrite check_channel_bad.
  - rewrite (check_data_byte_bad c) by assumption.
    destruct (check_channel ch) as [[]|[]] eqn:E; try reflexivity;
      unfold check_channel in E; destruct (_ && _) in E; discriminate.
Qed.

(** Equal input bounds: the division of line 86 raises, if nothing before
    it did. *)
Lemma scale_value_degenerate value lo hi olo ohi q1 q2 :
  real_of lo = Some q1 → real_of hi = Some q2 → (q1 == q2)%Q →
  ∃ e, scale_value value lo hi olo ohi = Raise e.
Proof.
  intros Hlo Hhi Heq. unfold scale_value. unfold_monads.
  destruct (py_min hi value) as [m|e]; [|eauto].
  destruct (py_max lo m) as [c|e]; [|eauto].
  destruct (py_sub_real hi lo _ _ Hhi Hlo) as (ns & qs & Hs & Hfs & Eqs).
  rewrite Hs.
  destruct (py_sub ohi olo) as [no|e]; [|eauto].
  destruct (py_sub c lo) as [nd|e]; [|eauto].
  rewrite Hfs. unfold float_div.
  assert (Hz : Qis_zero qs = true).
  { unfold Qis_zero. apply Qeq_bool_iff. rewrite Eqs, Heq. ring. }
  rewrite Hz. eauto.
Qed.

Lemma type_cases m :
  type m = "note_on_off" ∨ type m = "cc_absolute" ∨ type m = "cc_relative" ∨
  (type m ≠ "note_on_off" ∧ type m ≠ "cc_absolute" ∧
   type m ≠ "cc_relative").
Proof.
  destruct (string_dec (type m) "note_on_off"); [tauto|].
  destruct (string_dec (type m) "cc_absolute"); [tauto|].
  destruct (string_dec (type m) "cc_relative"); tauto.
Qed.

Lemma translate_on_note m args cc :
  type m = "note_on_off" →
  translate_on m args cc = (cc, Some <$> note_message m args).
Proof. intros Ht. unfold translate_on. now rewrite Ht. Qed.

Lemma translate_on_absolute m args cc :
  type m = "cc_absolute" →
  translate_on m args cc = (cc, Some <$> absolute_message m args).
Proof. intros Ht. unfold translate_on. now rewrite Ht. Qed.

Lemma translate_on_relative m args cc :
  type m = "cc_relative" →
  translate_on m args cc =
    match relative_inputs m args with
    | Raise e => (cc, Raise e)
    | Ok (delta, c) =>
        let v := accumulate (cc !! c) delta in
        (<[c := v]> cc, Some <$> Message_control_change (channel m) c v)
    end.
Proof. intros Ht. unfold translate_on. now rewrite Ht. Qed.

Lemma translate_on_other m args cc :
  type m ≠ "note_on_off" → type m ≠ "cc_absolute" →
  type m ≠ "cc_relative" →
  translate_on m args cc = (cc, Ok None).
Proof.
  intros H1 H2 H3. unfold translate_on.
  apply String.eqb_neq in H1, H2, H3. now rewrite H1, H2, H3.
Qed.

Lemma unusable_no_message m args cc msg :
  unusable m → snd (translate_on m args cc) ≠ Ok (Some msg).
Proof.
  intros Hbad.
  destruct (type_cases m) as [Ht|[Ht|[Ht|(H1 & H2 & H3)]]].
  - rewrite translate_on_note by assumption. simpl.
    unfold note_message. unfold_monads.
    destruct (first_arg args); [|discriminate].
    destruct (py_gt _ _); [|discriminate].
    destruct (note m) as [n|] eqn:Hn; simpl; [|discriminate].
    rewrite Message_note_on_bad; [discriminate|].
    destruct Hbad as [Hch|[(t & Htg & Hr)|[Habs _]]].
    + now left.
    + right. unfold target in Htg. rewrite Ht in Htg. simpl in Htg.
      congruence.
    + congruence.
  - rewrite translate_on_absolute by assumption. simpl.
    unfold absolute_message. unfold_monads.
    destruct (first_arg args) as [a|]; [|discriminate].
    destruct (v_map m) as [vm|] eqn:Hvm; simpl; [|discriminate].
    destruct (scale_value _ _ _ _ _) as [v|] eqn:Hs; [|discriminate].
    destruct (control m) as [c|] eqn:Hc; simpl; [|discriminate].
    destruct Hbad as [Hch|[(t & Htg & Hr)|(_ & vm' & q1 & q2 & Hvm' & Hlo & Hhi & Heq)]].
    + rewrite Message_control_change_bad; [discriminate|now left].
    + rewrite Message_control_change_bad; [discriminate|].
      right. unfold target in Htg. rewrite Ht in Htg. simpl in Htg.
      congruence.
    + assert (vm' = vm) as -> by congruence.
      destruct (scale_value_degenerate a _ _ (out_min vm) (out_max vm)
                  q1 q2 Hlo Hhi Heq) as [e He].
      congruence.
  - rewrite translate_on_relative by assumption.
    destruct (relative_inputs m args) as [[delta c]|e] eqn:Hin;
      [|discriminate].
    pose proof (relative_inputs_control _ _ _ _ Hin) as Hc. simpl.
    rewrite Message_control_change_bad; [discriminate|].
    destruct Hbad as [Hch|[(t & Htg & Hr)|[Habs _]]].
    + now left.
    + right. unfold target in Htg. rewrite Ht in Htg. simpl in Htg.
      congruence.
    + congruence.
  - rewrite translate_on_other by assumption. discriminate.
Qed.

(** C2, as the code has it.  Nothing validates the mapping table: whatever
    the table holds, [main] returns early exactly when the MIDI port fails to
    open, and serves otherwise.  An entry with a channel outside 0..15, a
    note or control outside 0..127, or (for [cc_absolute]) equal input
    bounds is only ever rejected event by event: the handler returns
    normally and nothing is sent. *)
Theorem no_validation_at_startup table events :
  (∀ open_output,
     main table open_output events = None ↔ ∃ e, open_output = Raise e) ∧
  ∀ address m args w,
    table !! address = Some m → unusable m →
    snd (osc_handler table address args w) = Ok tt ∧
    emitted table address args w = [].
Proof.
  split.
  { intros [[]|e]; simpl; split; intros H; try discriminate; eauto.
    destruct H as [e H]. discriminate. }
  intros address m args w Hm Hbad.
  destruct (osc_handler_on table address args w) as (Hr & _ & Hp).
  split; [exact Hr|]. apply emitted_app. rewrite Hp. f_equal.
  unfold handle_on. rewrite Hm.
  pose proof (fun msg => unusable_no_message m args (cc_values w) msg Hbad)
    as Hno.
  destruct (translate_on m args (cc_values w)) as [cc' [[msg|]|e]];
    simpl in *; try reflexivity.
  now contradiction (Hno msg).
Qed.

Lemma no_validation_at_startup_witness :
  snd (osc_handler channel_16_table "/tangent/kn/B/delta" [Int 1]
         initial_world) = Ok tt ∧
  emitted channel_16_table "/tangent/kn/B/delta" [Int 1] initial_world = [].
Proof.
  apply (proj2 (no_validation_at_startup channel_16_table [])
           "/tangent/kn/B/delta"
           {| type := "cc_relative"; channel := 16; note := None;
              control := Some 23; v_map := None |}
           [Int 1] initial_world eq_refl).
  left. simpl. lia.
Defined.

(** ** Malformed events *)

Lemma scale_value_none lo hi olo ohi :
  scale_value PyNone lo hi olo ohi = Raise TypeError.
Proof. unfold scale_value, py_min. destruct hi; reflexivity. Qed.

Lemma py_sub_str s b : py_sub (PyStr s) b = Raise TypeError.
Proof. reflexivity. Qed.






(** * Further properties of the handler *)

(** ** The world after one event *)

Lemma osc_handler_world table address args w :
  osc_handler table address args w =
    match table !! address with
    | None => (printed w (Received address args), Ok tt)
    | Some m =>
        let t := translate_on m args (cc_values w) in
        ({| cc_values := fst t;
            midi_out_port := midi_out_port w ++ outcome_messages (snd t);
            console := console w
                       ++ Received address args
                          :: outcome_lines address (snd t) |}, Ok tt)
    end.
Proof.
  rewrite osc_handler_unfold. cbv zeta.
  destruct (table !! address) as [m|]; [|reflexivity].
  rewrite translate_eq. cbn [fst snd].
  destruct (translate_on m args _) as [cc' [[msg|]|e]]; cbn [fst snd];
    unfold sent, printed, with_cc; simpl; rewrite ?app_nil_r;
    rewrite <- ?app_assoc; reflexivity.
Qed.

Lemma serve_cons table address args rest w :
  serve table ((address, args) :: rest) w
    = serve table rest (fst (osc_handler table address args w)).
Proof.
  cbn [serve]. unfold_monads.
  destruct (osc_handler_on table address args w) as (Hr & _).
  destruct (osc_handler table address args w) as [w1 r1]. simpl in *.
  now subst r1.
Qed.

(** X1. Whatever the table, the packet and the state, the handler returns
    normally, and so does a whole run of packets: no exception leaves
    [osc_handler]. *)
Theorem handler_never_raises table events w :
  snd (serve table events w) = Ok tt ∧
  ∀ address args, snd (osc_handler table address args w) = Ok tt.
Proof.
  split.
  - apply (serve_on_eq table events w).
  - intros address args. apply (osc_handler_on table address args w).
Qed.

(** X2. One event appends at most one message to the port and never touches
    what was sent before; on the console it appends the "Received" line and
    then at most one more line. *)
Theorem one_message_per_event table address args w :
  let r := osc_handler table address args w in
  midi_out_port (fst r) = midi_out_port w ++ emitted table address args w ∧
  (length (emitted table address args w) <= 1)%nat ∧
  ∃ tail, console (fst r) = console w ++ Received address args :: tail ∧
          (length tail <= 1)%nat.
Proof.
  cbv zeta. unfold emitted. rewrite osc_handler_world.
  destruct (table !! address) as [m|]; cbn [fst].
  - cbv zeta. cbn [midi_out_port console].
    rewrite drop_app_length.
    destruct (snd (translate_on m args (cc_values w))) as [[msg|]|e];
      simpl; (split; [reflexivity|]); (split; [lia|]).
    + exists [Sending msg]. split; [reflexivity|]. simpl. lia.
    + exists []. split; [reflexivity|]. simpl. lia.
    + exists [Error address e]. split; [reflexivity|]. simpl. lia.
  - simpl. rewrite drop_all, app_nil_r.
    split; [reflexivity|]. split; [simpl; lia|].
    exists []. split; [reflexivity|]. simpl; lia.
Qed.

(** ** What reaches the port *)

Lemma check_channel_ok ch : check_channel ch = Ok tt → 0 <= ch <= 15.
Proof.
  unfold check_channel.
  destruct (0 <=? ch) eqn:E1; destruct (ch <=? 15) eqn:E2;
    try discriminate.
  apply Z.leb_le in E1, E2. lia.
Qed.

Lemma check_data_byte_ok v : check_data_byte v = Ok tt → 0 <= v <= 127.
Proof.
  unfold check_data_byte.
  destruct (0 <=? v) eqn:E1; destruct (v <=? 127) eqn:E2;
    try discriminate.
  apply Z.leb_le in E1, E2. lia.
Qed.

Lemma Message_note_on_valid ch n v msg :
  Message_note_on ch n v = Ok msg → valid_message msg.
Proof.
  unfold Message_note_on. unfold_monads.
  destruct (check_channel ch) as [[]|] eqn:E1; [|discriminate].
  destruct (check_data_byte n) as [[]|] eqn:E2; [|discriminate].
  destruct (check_data_byte v) as [[]|] eqn:E3; [|discriminate].
  intros H. injection H as <-. simpl.
  auto using check_channel_ok, check_data_byte_ok.
Qed.

Lemma Message_control_change_valid ch c v msg :
  Message_control_change ch c v = Ok msg → valid_message msg.
Proof.
  unfold Message_control_change. unfold_monads.
  destruct (check_channel ch) as [[]|] eqn:E1; [|discriminate].
  destruct (check_data_byte c) as [[]|] eqn:E2; [|discriminate].
  destruct (check_data_byte v) as [[]|] eqn:E3; [|discriminate].
  intros H. injection H as <-. simpl.
  auto using check_channel_ok, check_data_byte_ok.
Qed.

Lemma fmap_Some_Ok {A : Type} (r : result A) (a : A) :
  Some <$> r = Ok (Some a) → r = Ok a.
Proof. destruct r; simpl; intros H; now inversion H. Qed.

Lemma translate_on_valid m args cc msg :
  snd (translate_on m args cc) = Ok (Some msg) → valid_message msg.
Proof.
  destruct (type_cases m) as [Ht|[Ht|[Ht|(H1 & H2 & H3)]]].
  - rewrite translate_on_note by assumption. cbn [snd].
    intros H. apply fmap_Some_Ok in H. revert H.
    unfold note_message. unfold_monads.
    destruct (first_arg args); [|discriminate].
    destruct (py_gt _ _); [|discriminate].
    destruct (getitem (note m)); [|discriminate].
    apply Message_note_on_valid.
  - rewrite translate_on_absolute by assumption. cbn [snd].
    intros H. apply fmap_Some_Ok in H. revert H.
    unfold absolute_message. unfold_monads.
    destruct (first_arg args); [|discriminate].
    destruct (getitem (v_map m)); [|discriminate].
    destruct (scale_value _ _ _ _ _); [|discriminate].
    destruct (getitem (control m)); [|discriminate].
    apply Message_control_change_valid.
  - rewrite translate_on_relative by assumption.
    destruct (relative_inputs m args) as [[delta c]|e]; [|discriminate].
    cbv zeta. cbn [snd]. intros H. apply fmap_Some_Ok in H.
    now apply Message_control_change_valid in H.
  - rewrite translate_on_other by assumption. discriminate.
Qed.

Lemma handler_port_valid table address args w :
  Forall valid_message (midi_out_port w) →
  Forall valid_message
    (midi_out_port (fst (osc_handler table address args w))).
Proof.
  intros Hw. rewrite osc_handler_world.
  destruct (table !! address) as [m|]; [|exact Hw].
  cbv zeta. cbn [fst midi_out_port]. apply Forall_app. split; [exact Hw|].
  destruct (snd (translate_on m args (cc_values w))) as [[msg|]|e] eqn:E;
    simpl; constructor; [|constructor].
  now apply translate_on_valid in E.
Qed.

(** X3. Every message that reaches the port is a legal MIDI message: channel
    in 0..15, note or control in 0..127, velocity or value in 0..127.  This
    holds for any mapping table, well-formed or not, and any packets. *)
Theorem port_holds_valid_messages table events : ∀ w,
  Forall valid_message (midi_out_port w) →
  Forall valid_message (midi_out_port (fst (serve table events w))).
Proof.
  induction events as [|[address args] rest IH]; intros w Hw.
  - exact Hw.
  - rewrite serve_cons. apply IH. now apply handler_port_valid.
Qed.

Lemma port_holds_valid_messages_witness :
  Forall valid_message
    (midi_out_port
       (fst (serve channel_16_table
               [("/tangent/kn/B/delta", [Int 1]);
                ("/tangent/sl/A/value", [Flt 2]);
                ("/tangent/kn/A/delta", [Int 500])]
               initial_world))).
Proof.
  apply (port_holds_valid_messages channel_16_table
           [("/tangent/kn/B/delta", [Int 1]);
            ("/tangent/sl/A/value", [Flt 2]);
            ("/tangent/kn/A/delta", [Int 500])] initial_world).
  constructor.
Defined.

(** ** What [cc_values] holds *)

Lemma translate_on_cc m args cc :
  fst (translate_on m args cc) = cc ∨
  ∃ c delta, type m = "cc_relative" ∧ control m = Some c ∧
             fst (translate_on m args cc)
               = <[c := accumulate (cc !! c) delta]> cc.
Proof.
  destruct (type_cases m) as [Ht|[Ht|[Ht|(H1 & H2 & H3)]]].
  - rewrite translate_on_note by assumption. now left.
  - rewrite translate_on_absolute by assumption. now left.
  - rewrite translate_on_relative by assumption.
    destruct (relative_inputs m args) as [[delta c]|e] eqn:Hin; [|now left].
    right. exists c, delta. split; [assumption|].
    split; [now apply relative_inputs_control in Hin|reflexivity].
  - rewrite translate_on_other by assumption. now left.
Qed.

Lemma handler_cc table address args w :
  cc_values (fst (osc_handler table address args w)) = cc_values w ∨
  ∃ m c delta, table !! address = Some m ∧ type m = "cc_relative" ∧
               control m = Some c ∧
               cc_values (fst (osc_handler table address args w))
                 = <[c := accumulate (cc_values w !! c) delta]> (cc_values w).
Proof.
  rewrite osc_handler_world.
  destruct (table !! address) as [m|] eqn:Hm; [|now left].
  cbv zeta. cbn [fst cc_values].
  destruct (translate_on_cc m args (cc_values w))
    as [H|(c & delta & Ht & Hc & H)]; [now left|].
  right. exists m, c, delta. auto.
Qed.

(** X4. The stored values stay in 0..127: if every value in [cc_values] is
    in that range, so is every value after any run of packets, for any
    table. *)
Theorem stored_values_stay_in_range table events : ∀ w,
  (∀ c v, cc_values w !! c = Some v → 0 <= v <= 127) →
  ∀ c v, cc_values (fst (serve table events w)) !! c = Some v →
         0 <= v <= 127.
Proof.
  induction events as [|[address args] rest IH]; intros w Hw.
  - exact Hw.
  - rewrite serve_cons. apply IH.
    destruct (handler_cc table address args w)
      as [->|(m & c0 & delta & _ & _ & _ & ->)]; [exact Hw|].
    intros c v. destruct (decide (c = c0)) as [->|Hne].
    + rewrite lookup_insert_eq. intros H. injection H as <-.
      apply accumulate_range.
    + rewrite lookup_insert_ne by congruence. apply Hw.
Qed.

Lemma stored_values_stay_in_range_witness :
  let w := fst (serve MIDI_MAPPING
                  [("/tangent/kn/A/delta", [Int 500]);
                   ("/tangent/wh/A/delta", [Int (-500)])]
                  initial_world) in
  cc_values w !! 20 = Some 127 ∧ 0 <= 127 <= 127.
Proof.
  split; [vm_compute; reflexivity|].
  apply (stored_values_stay_in_range MIDI_MAPPING
           [("/tangent/kn/A/delta", [Int 500]);
            ("/tangent/wh/A/delta", [Int (-500)])] initial_world) with 20.
  - intros c v H. simpl in H. rewrite lookup_empty in H. discriminate.
  - vm_compute. reflexivity.
Defined.

(** X5. Keys of [cc_values] are never removed, and the only keys a run of
    packets can add are control numbers of [cc_relative] entries of the
    table. *)
Theorem stored_keys_are_relative_controls table events : ∀ w,
  let w' := fst (serve table events w) in
  (∀ c, is_Some (cc_values w !! c) → is_Some (cc_values w' !! c)) ∧
  (∀ c, is_Some (cc_values w' !! c) →
        is_Some (cc_values w !! c) ∨
        ∃ address m, table !! address = Some m ∧
                     type m = "cc_relative" ∧ control m = Some c).
Proof.
  induction events as [|[address args] rest IH]; intros w; cbv zeta.
  - split; auto.
  - rewrite serve_cons.
    destruct (IH (fst (osc_handler table address args w))) as [Hkeep Hnew].
    destruct (handler_cc table address args w)
      as [Heq|(m & c0 & delta & Hm & Ht & Hc & Heq)]; rewrite Heq in *.
    + split; auto.
    + split.
      * intros c Hsome. apply Hkeep.
        destruct (decide (c = c0)) as [->|Hne].
        -- rewrite lookup_insert_eq. eauto.
        -- now rewrite lookup_insert_ne by congruence.
      * intros c Hsome. destruct (Hnew c Hsome) as [H|H]; [|now right].
        destruct (decide (c = c0)) as [->|Hne].
        -- right. eauto.
        -- left. now rewrite lookup_insert_ne in H by congruence.
Qed.

(** ** What the console shows *)

Lemma sending_lines_app l1 l2 :
  sending_lines (l1 ++ l2) = sending_lines l1 ++ sending_lines l2.
Proof.
  induction l1 as [|[]]; simpl; rewrite ?IHl1; reflexivity.
Qed.

Lemma received_lines_app l1 l2 :
  received_lines (l1 ++ l2) = received_lines l1 ++ received_lines l2.
Proof.
  induction l1 as [|[]]; simpl; rewrite ?IHl1; reflexivity.
Qed.

Lemma handler_console table address args w :
  let w' := fst (osc_handler table address args w) in
  ∃ new,
    console w' = console w ++ new ∧
    received_lines new = [(address, args)] ∧
    midi_out_port w' = midi_out_port w ++ sending_lines new.
Proof.
  cbv zeta. rewrite osc_handler_world.
  destruct (table !! address) as [m|].
  - cbv zeta. cbn [fst console midi_out_port].
    eexists. split; [reflexivity|].
    destruct (snd (translate_on m args (cc_values w))) as [[msg|]|e];
      simpl; auto.
  - exists [Received address args]. simpl. rewrite app_nil_r. auto.
Qed.

(** X6. The console and the port agree: if the "Sending" lines printed so
    far are exactly the messages sent so far, this is still so after any run
    of packets.  A message is never sent without its "Sending" line, and no
    "Sending" line is printed for a message that was not sent. *)
Theorem sending_lines_match_port table events : ∀ w,
  sending_lines (console w) = midi_out_port w →
  let w' := fst (serve table events w) in
  sending_lines (console w') = midi_out_port w'.
Proof.
  induction events as [|[address args] rest IH]; intros w Hw; cbv zeta.
  - exact Hw.
  - rewrite serve_cons. apply IH.
    destruct (handler_console table address args w) as (new & Hc & _ & Hp).
    rewrite Hc, Hp, sending_lines_app, Hw. reflexivity.
Qed.

Lemma sending_lines_match_port_witness :
  let w := fst (serve MIDI_MAPPING
                  [("/tangent/bt/A/press", [Int 1]);
                   ("/tangent/bt/A/press", []);
                   ("/tangent/unknown", [Int 1]);
                   ("/tangent/kn/A/delta", [Int 2])]
                  initial_world) in
  sending_lines (console w) = midi_out_port w.
Proof.
  apply (sending_lines_match_port MIDI_MAPPING
           [("/tangent/bt/A/press", [Int 1]);
            ("/tangent/bt/A/press", []);
            ("/tangent/unknown", [Int 1]);
            ("/tangent/kn/A/delta", [Int 2])] initial_world).
  reflexivity.
Defined.

(** X7. Every packet is logged, in arrival order, whatever becomes of it:
    the "Received" lines a run adds to the console are exactly its
    packets. *)
Theorem every_packet_is_logged table events : ∀ w,
  received_lines (console (fst (serve table events w)))
    = received_lines (console w) ++ events.
Proof.
  induction events as [|[address args] rest IH]; intros w.
  - simpl. now rewrite app_nil_r.
  - rewrite serve_cons, IH.
    destruct (handler_console table address args w) as (new & Hc & Hr & _).
    rewrite Hc, received_lines_app, Hr, <- app_assoc. reflexivity.
Qed.

(** ** Rules without state *)

(** X8. An event for a [note_on_off] or [cc_absolute] rule, or for any rule
    that is not [cc_relative], leaves [cc_values] as it is, and what it sends
    does not depend on the state: the same packet sends the same message in
    every world. *)
Theorem stateless_rules table address m args w1 w2 :
  table !! address = Some m →
  type m ≠ "cc_relative" →
  cc_values (fst (osc_handler table address args w1)) = cc_values w1 ∧
  emitted table address args w1 = emitted table address args w2.
Proof.
  intros Hm Ht.
  assert (Hpure : ∀ cc, ∃ r, translate_on m args cc = (cc, r) ∧
                             r = snd (translate_on m args ∅)).
  { intros cc.
    destruct (type_cases m) as [H|[H|[H|(H1 & H2 & H3)]]];
      [| |contradiction|].
    - rewrite !translate_on_note by assumption. eauto.
    - rewrite !translate_on_absolute by assumption. eauto.
    - rewrite !translate_on_other by assumption. eauto. }
  assert (Hem : ∀ w, emitted table address args w
                     = outcome_messages (snd (translate_on m args ∅))).
  { intros w. apply emitted_app. rewrite osc_handler_world, Hm. cbv zeta.
    destruct (Hpure (cc_values w)) as (r & -> & ->). reflexivity. }
  split.
  - rewrite osc_handler_world, Hm. cbv zeta.
    destruct (Hpure (cc_values w1)) as (r & -> & _). reflexivity.
  - now rewrite !Hem.
Qed.

Lemma stateless_rules_witness :
  emitted MIDI_MAPPING "/tangent/sl/A/value" [Flt (1#4)] initial_world
    = emitted MIDI_MAPPING "/tangent/sl/A/value" [Flt (1#4)]
        (stored initial_world 22 5).
Proof.
  apply (stateless_rules MIDI_MAPPING "/tangent/sl/A/value"
    {| type := "cc_absolute"; channel := 0; note := None;
       control := Some 22;
       v_map := Some {| in_min := Flt 0; in_max := Flt 1;
                        out_min := Int 0; out_max := Int 127 |} |}
    [Flt (1#4)] initial_world (stored initial_world 22 5) eq_refl).
  discriminate.
Defined.

(** ** Which error is reported *)

Lemma handler_error table address m args w cc' e :
  table !! address = Some m →
  translate_on m args (cc_values w) = (cc', Raise e) →
  let w' := fst (osc_handler table address args w) in
  cc_values w' = cc' ∧
  midi_out_port w' = midi_out_port w ∧
  console w' = console w ++ [Received address args; Error address e].
Proof.
  intros Hm Ht. cbv zeta. rewrite osc_handler_world, Hm. cbv zeta.
  rewrite Ht. simpl. now rewrite app_nil_r.
Qed.

(** X9. A packet without arguments for an entry of one of the three known
    types is reported as an [IndexError] for its address; nothing is sent
    and [cc_values] is not touched, whatever else the entry holds. *)
Theorem missing_argument_is_index_error table address m w :
  table !! address = Some m →
  type m = "note_on_off" ∨ type m = "cc_absolute" ∨
  type m = "cc_relative" →
  let w' := fst (osc_handler table address [] w) in
  cc_values w' = cc_values w ∧
  midi_out_port w' = midi_out_port w ∧
  console w' = console w ++ [Received address []; Error address IndexError].
Proof.
  intros Hm Ht. apply (handler_error table address m [] w); [assumption|].
  destruct Ht as [Ht|[Ht|Ht]].
  - now rewrite translate_on_note.
  - now rewrite translate_on_absolute.
  - now rewrite translate_on_relative.
Qed.

Lemma missing_argument_is_index_error_witness :
  console (fst (osc_handler MIDI_MAPPING "/tangent/kn/A/delta" []
                  initial_world))
    = [Received "/tangent/kn/A/delta" [];
       Error "/tangent/kn/A/delta" IndexError].
Proof.
  apply (missing_argument_is_index_error MIDI_MAPPING "/tangent/kn/A/delta"
    {| type := "cc_relative"; channel := 0; note := None;
       control := Some 20; v_map := None |} initial_world eq_refl).
  right. right. reflexivity.
Defined.







(** * Further properties of the scaler *)





Lemma scale_value_str_type_error s lo hi olo ohi :
  scale_value (PyStr s) lo hi olo ohi = Raise TypeError.
Proof.
  unfold scale_value, py_min, py_max, py_gt. unfold_monads.
  destruct hi as [nh|bh|sh|]; simpl; try reflexivity.
  destruct lo as [nl|bl|sl|]; simpl;
    destruct (String.ltb s sh); simpl; try reflexivity;
    destruct (String.ltb sl _); reflexivity.
Qed.

(** X14. A NaN input is not rejected: [min(in_max, nan)] keeps [in_max], so
    NaN scales exactly like [in_max], whatever the bounds are. *)
Theorem scale_value_nan_is_in_max lo hi olo ohi :
  scale_value (PyNum (PyFloat NaN)) lo hi olo ohi
    = scale_value hi lo hi olo ohi.
Proof.
  destruct hi as [nh|bh|sh|].
  - rewrite !scale_value_clamp. f_equal.
    unfold clamp, py_min. rewrite !py_lt_view. simpl.
    destruct (float_ nh) as [q|[|]|]; simpl; try reflexivity.
    now rewrite (proj2 (Qlt_bool_false q q)) by lra.
  - rewrite !scale_value_clamp. f_equal.
    unfold clamp, py_min. rewrite !py_lt_view. simpl.
    now rewrite (proj2 (Qlt_bool_false _ _) (Qle_refl (inject_Z (Z.b2z bh)))).
  - rewrite scale_value_str_type_error. reflexivity.
  - rewrite scale_value_none. reflexivity.
Qed.











(** * Further properties of the accumulation *)

Lemma accumulated_running deltas : ∀ prior,
  Forall (fun s => 0 <= s <= 127) (running (default 64 prior) deltas) →
  accumulated prior deltas = running (default 64 prior) deltas.
Proof.
  induction deltas as [|d ds IH]; intros prior Hall; [reflexivity|].
  simpl in *. inversion Hall as [|s l Hs Hl]; subst.
  assert (Hv : accumulate prior d = default 64 prior + d)
    by (unfold accumulate; lia).
  rewrite Hv. f_equal. now apply (IH (Some (default 64 prior + d))).
Qed.

Lemma running_last deltas : ∀ start d,
  last (running start (d :: deltas))
    = Some (start + foldr Z.add 0 (d :: deltas)).
Proof.
  induction deltas as [|d' ds IH]; intros start d.
  - simpl. f_equal. lia.
  - change (running start (d :: d' :: ds))
      with ((start + d) :: running (start + d) (d' :: ds)).
    change (last ((start + d) :: running (start + d) (d' :: ds)))
      with (last (running (start + d) (d' :: ds))).
    rewrite IH. f_equal. simpl. lia.
Qed.

(** X18. Away from the ends the knob adds up: as long as every running sum
    of the truncated deltas, started at the stored value (64 if none),
    stays within 0..127, the values sent are exactly these running sums and
    the value left in [cc_values] is the start plus the sum of all
    deltas. *)
Theorem relative_sums_without_saturation table address m c argss qs w :
  table !! address = Some m →
  type m = "cc_relative" →
  control m = Some c →
  well_formed m →
  Forall2 (fun args q => first_real args = Some q) argss qs →
  let deltas := map Qtrunc qs in
  let start := default 64 (cc_values w !! c) in
  Forall (fun s => 0 <= s <= 127) (running start deltas) →
  let w' := fst (serve table (map (pair address) argss) w) in
  midi_out_port w'
    = midi_out_port w
      ++ map (control_change (channel m) c) (running start deltas) ∧
  (deltas ≠ [] →
   cc_values w' !! c = Some (start + foldr Z.add 0 deltas)).
Proof.
  intros Hm Ht Hc Hwf Hall deltas start Hrange w'.
  destruct (serve_deltas table address m c Hm Ht Hc Hwf argss qs Hall w)
    as (_ & Hp & Hv).
  fold deltas in Hp, Hv.
  rewrite (accumulated_running deltas (cc_values w !! c) Hrange) in Hp, Hv.
  fold start in Hp, Hv. split; [exact Hp|].
  intros Hne. unfold w'. rewrite Hv.
  destruct deltas as [|d ds]; [contradiction|].
  now rewrite running_last.
Qed.

Lemma relative_sums_without_saturation_witness :
  let w' := fst (serve MIDI_MAPPING
                   (map (pair "/tangent/wh/A/delta")
                      [[Int 10]; [Flt (-5#2)]; [Int (-30)]])
                   initial_world) in
  midi_out_port w'
    = [control_change 0 21 74; control_change 0 21 72;
       control_change 0 21 42] ∧
  cc_values w' !! 21 = Some 42.
Proof.
  pose proof (relative_sums_without_saturation MIDI_MAPPING
    "/tangent/wh/A/delta"
    {| type := "cc_relative"; channel := 0; note := None;
       control := Some 21; v_map := None |} 21
    [[Int 10]; [Flt (-5#2)]; [Int (-30)]] [10%Q; (-5#2)%Q; (-30)%Q]
    initial_world eq_refl eq_refl eq_refl) as H.
  destruct H as (Hp & Hv).
  - split; [simpl; lia|]. split; [discriminate|].
    intros c Hc. simpl in Hc. inversion Hc. lia.
  - repeat constructor.
  - repeat constructor; vm_compute; discriminate.
  - split; [exact Hp|]. apply Hv. discriminate.
Defined.

Lemma Qtrunc_small q : (-1 < q < 1)%Q → Qtrunc q = 0.
Proof.
  intros [Hlo Hhi]. destruct (Qlt_le_dec q 0) as [Hneg|Hpos].
  - rewrite Qtrunc_nonpos by lra.
    assert (H1 : Qceiling q <= 0).
    { change 0 with (Qceiling 0). apply Qceiling_resp_le. lra. }
    assert (H2 : -1 < Qceiling q).
    { pose proof (Qle_ceiling q) as Hc.
      assert (Hq : (inject_Z (-1) < inject_Z (Qceiling q))%Q)
        by (change (inject_Z (-1)) with (-1)%Q; lra).
      now rewrite <- Zlt_Qlt in Hq. }
    lia.
  - rewrite Qtrunc_nonneg by lra.
    assert (H1 : 0 <= Qfloor q).
    { change 0 with (Qfloor 0). now apply Qfloor_resp_le. }
    assert (H2 : Qfloor q < 1).
    { pose proof (Qfloor_le q) as Hf.
      assert (Hq : (inject_Z (Qfloor q) < inject_Z 1)%Q)
        by (change (inject_Z 1) with 1%Q; lra).
      now rewrite <- Zlt_Qlt in Hq. }
    lia.
Qed.

Lemma accumulated_zeros n : ∀ prior,
  accumulated prior (repeat 0 n) = repeat (accumulate prior 0) n.
Proof.
  induction n as [|n IH]; intros prior; [reflexivity|].
  simpl. f_equal. rewrite IH. f_equal. unfold accumulate. simpl. lia.
Qed.

Lemma map_Qtrunc_small qs :
  Forall (fun q => (-1 < q < 1)%Q) qs →
  map Qtrunc qs = repeat 0 (length qs).
Proof.
  induction 1 as [|q qs Hq _ IH]; [reflexivity|].
  simpl. now rewrite Qtrunc_small, IH.
Qed.

(** X19. Deltas smaller than one step are lost, not added up: [int()]
    turns each of them into 0, so a run of any length of deltas strictly
    between -1 and 1 re-sends the same value every time and never moves the
    control. *)
Theorem fractional_deltas_are_lost table address m c argss qs w :
  table !! address = Some m →
  type m = "cc_relative" →
  control m = Some c →
  well_formed m →
  Forall2 (fun args q => first_real args = Some q) argss qs →
  Forall (fun q => (-1 < q < 1)%Q) qs →
  let v := accumulate (cc_values w !! c) 0 in
  midi_out_port (fst (serve table (map (pair address) argss) w))
    = midi_out_port w
      ++ repeat (control_change (channel m) c v) (length argss).
Proof.
  intros Hm Ht Hc Hwf Hall Hsmall v.
  destruct (serve_deltas table address m c Hm Ht Hc Hwf argss qs Hall w)
    as (_ & Hp & _).
  rewrite Hp, (map_Qtrunc_small qs Hsmall), accumulated_zeros.
  f_equal. fold v. rewrite (Forall2_length _ _ _ Hall).
  generalize (length qs) as n. induction n as [|n IH]; [reflexivity|].
  simpl. now rewrite IH.
Qed.

Lemma fractional_deltas_are_lost_witness :
  midi_out_port
    (fst (serve MIDI_MAPPING
            (map (pair "/tangent/kn/A/delta")
               [[Flt (9#10)]; [Flt (9#10)]; [Flt (9#10)]])
            initial_world))
    = [control_change 0 20 64; control_change 0 20 64;
       control_change 0 20 64].
Proof.
  apply (fractional_deltas_are_lost MIDI_MAPPING "/tangent/kn/A/delta"
    {| type := "cc_relative"; channel := 0; note := None;
       control := Some 20; v_map := None |} 20
    [[Flt (9#10)]; [Flt (9#10)]; [Flt (9#10)]]
    [(9#10)%Q; (9#10)%Q; (9#10)%Q] initial_world eq_refl eq_refl eq_refl).
  - split; [simpl; lia|]. split; [discriminate|].
    intros c Hc. simpl in Hc. inversion Hc. lia.
  - repeat constructor.
  - repeat constructor.
Defined.





